(** * Arc Tab Switcher: MRU order, screenshot cache and switcher controller

    A shallow embedding of the background service worker (MRU tab order,
    screenshot cache, [toggleTabSwitcher]) and of the content script
    (switcher session state and the modifier-key state machine), with the
    properties of the specification proved about it.

    JavaScript values are modelled as follows: tab ids, indices, widths and
    timestamps are integers ([Z]); strings are [string]; a property that may
    be missing ([undefined] / [null]) is an [option]; an array is a [list];
    the [Map] of tabs by id is a [gmap], the [Set] of added ids a [gset];
    the screenshot [Map], whose iteration order the code depends on, is an
    association list in insertion order. *)

From Stdlib Require Import ssreflect ZArith String Ascii.
From stdpp Require Import base list gmap strings sorting.

#[local] Set Warnings "-rewrite-rw".
Local Open Scope general_if_scope.
Local Open Scope Z_scope.

(** ** JavaScript primitives used by the code *)

Module JS.

(** [arr.slice(0, e)]: a negative [e] counts from the end of the array,
    and the result is clipped to the array. *)
Definition slice0 {A} (l : list A) (e : Z) : list A :=
  if e <? 0 then take (length l - Z.to_nat (- e))%nat l
  else take (Z.to_nat e) l.

(** [arr[i]] for an integer [i]: [undefined] (here [None]) out of range. *)
Definition at_index {A} (l : list A) (i : Z) : option A :=
  if i <? 0 then None else l !! Z.to_nat i.

(** [arr.length] as a JavaScript number. *)
Definition len {A} (l : list A) : Z := Z.of_nat (length l).

(** Truthiness of a string: only the empty string is falsy. *)
Definition truthy (s : string) : bool :=
  match s with EmptyString => false | String _ _ => true end.

(** Truthiness of a possibly missing string. *)
Definition truthy_opt (s : option string) : bool :=
  match s with None => false | Some s => truthy s end.

(** [s || ''] for a possibly missing string. *)
Definition or_empty (s : option string) : string :=
  match s with
  | Some s => if truthy s then s else EmptyString
  | None => EmptyString
  end.

(** [s.startsWith(p)]. *)
Definition startsWith (s p : string) : bool := String.prefix p s.

(** [s.includes(q)]: [q] occurs in [s] at some position. *)
Fixpoint includes (s q : string) : bool :=
  String.prefix q s ||
  match s with
  | EmptyString => false
  | String _ s' => includes s' q
  end.

(** What [includes] decides: [q] is a contiguous part of [s]. *)
Definition contains (s q : string) : Prop :=
  ∃ pre post, s = String.append pre (String.append q post).

(** [a % b] on integers: the remainder has the sign of the dividend. *)
Definition rem (a b : Z) : Z := Z.rem a b.

(** [Array.prototype.sort] with a comparator [(a, b) => key a - key b] on
    integer keys: a stable sort by key.  Insertion from the right keeps an
    element in front of the later elements with the same key. *)
Section sort.
Context {A : Type} (key : A → Z).

Fixpoint insert_sorted (x : A) (l : list A) : list A :=
  match l with
  | [] => [x]
  | y :: l' =>
      if key x <=? key y then x :: y :: l' else y :: insert_sorted x l'
  end.

Definition sort_by (l : list A) : list A := foldr insert_sorted [] l.

(** The first element of a list among those with the least key. *)
Definition first_min (l : list A) : option A :=
  foldr (λ x m, match m with
                | None => Some x
                | Some y => if key x <=? key y then Some x else Some y
                end) None l.
End sort.

(** A [Map] whose iteration order matters: the entries in insertion
    order, one per key. *)
Section ordered_map.
Context {V : Type}.

(** [m.get(k)]. *)
Fixpoint map_get (k : Z) (m : list (Z * V)) : option V :=
  match m with
  | [] => None
  | kv :: m' => if decide (kv.1 = k) then Some kv.2 else map_get k m'
  end.

(** [m.set(k, v)]: an existing key keeps its position. *)
Fixpoint map_set (k : Z) (v : V) (m : list (Z * V)) : list (Z * V) :=
  match m with
  | [] => [(k, v)]
  | kv :: m' =>
      if decide (kv.1 = k) then (k, v) :: m' else kv :: map_set k v m'
  end.

(** [m.delete(k)]. *)
Definition map_delete (k : Z) (m : list (Z * V)) : list (Z * V) :=
  filter (λ kv, kv.1 ≠ k) m.

(** [m.size]. *)
Definition map_size (m : list (Z * V)) : Z := len m.
End ordered_map.

End JS.

(** ** Tabs and messages *)

(** A tab as the host reports it; [tab_screenshot] is the field that
    [toggleTabSwitcher] attaches. The fields are the source's [id], [url],
    [title] and [screenshot]. *)
Record Tab := mkTab {
  tab_id : Z;
  tab_url : option string;
  tab_title : option string;
  tab_screenshot : option string
}.

#[global] Instance Tab_eq_dec : EqDecision Tab.
Proof. solve_decision. Defined.

(** The two directions the background worker sends: the content script
    tests [direction === "forward"] and treats the other one as backward. *)
Inductive Direction := Forward | Backward.

#[global] Instance Direction_eq_dec : EqDecision Direction.
Proof. solve_decision. Defined.

(** The [toggleSwitcher] message. The content script reads [request.tabs]
    and [request.direction] with a fallback ([|| []], [|| "forward"]), so
    both may be missing. *)
Record ToggleRequest := mkToggleRequest {
  req_tabs : option (list Tab);
  req_currentTabId : Z;
  req_direction : option Direction
}.

(** ** Background service worker *)

Module Background.

(** *** MRU order *)

(** The [chrome.tabs.onActivated] listener's update of [mruTabOrder]
    (the specification's [recordActivation]). *)
Definition onActivated (mruTabOrder : list Z) (tabId : Z) : list Z :=
  let mru := filter (λ id, id ≠ tabId) mruTabOrder in
  let mru := tabId :: mru in
  if 100 <? JS.len mru then JS.slice0 mru 100 else mru.

(** The same update before the length limit is applied: the list that
    [slice(0, 100)] truncates. *)
Definition unbounded (mruTabOrder : list Z) (tabId : Z) : list Z :=
  tabId :: filter (λ id, id ≠ tabId) mruTabOrder.

(** The ids of a sequence of activations, each once, the most recently
    activated first ([remove_dups] keeps the last occurrence of an id). *)
Definition recency (activations : list Z) : list Z :=
  reverse (remove_dups activations).

(** The [chrome.tabs.onRemoved] listener's update of [mruTabOrder]. *)
Definition onRemoved (mruTabOrder : list Z) (tabId : Z) : list Z :=
  filter (λ id, id ≠ tabId) mruTabOrder.

(** [new Map(tabs.map(tab => [tab.id, tab]))]: a later tab with the same
    id replaces an earlier one. *)
Definition tabMap (tabs : list Tab) : gmap Z Tab :=
  foldl (λ m tab, <[tab_id tab := tab]> m) ∅ tabs.

(** The first loop of [sortTabsByMRU]: the state is [sortedTabs] and
    [addedIds]. *)
Definition mruLoop (tm : gmap Z Tab) (mruTabOrder : list Z)
  : list Tab * gset Z :=
  foldl (λ '(sortedTabs, addedIds) tabId,
           match tm !! tabId with
           | Some tab => (sortedTabs ++ [tab], {[tabId]} ∪ addedIds)
           | None => (sortedTabs, addedIds)
           end)
        ([], ∅) mruTabOrder.

(** The second loop of [sortTabsByMRU]. *)
Definition restLoop (addedIds : gset Z) (sortedTabs : list Tab)
    (tabs : list Tab) : list Tab :=
  foldl (λ sortedTabs tab,
           if decide (tab_id tab ∈ addedIds) then sortedTabs
           else sortedTabs ++ [tab])
        sortedTabs tabs.

Definition sortTabsByMRU (mruTabOrder : list Z) (tabs : list Tab)
  : list Tab :=
  let '(sortedTabs, addedIds) := mruLoop (tabMap tabs) mruTabOrder in
  restLoop addedIds sortedTabs tabs.

(** *** Screenshot cache *)

(** A cache entry [{ dataUrl, timestamp, url }]. *)
Record Entry := mkEntry {
  entry_dataUrl : string;
  entry_timestamp : option Z;
  entry_url : option string
}.

(** [tabScreenshotCache]: a [Map] from tab id to entry, in insertion
    order. *)
Abbreviation Cache := (list (Z * Entry)).

Definition MAX_SCREENSHOT_CACHE_ITEMS : Z := 25.

(** The sort key [entry.timestamp || 0] of [[id, entry]]. *)
Definition timestampOrZero (kv : Z * Entry) : Z :=
  default 0 (entry_timestamp kv.2).

(** The [while] loop of [pruneScreenshotCache]; [entries] is the sorted
    copy of the cache that [entries.shift()] consumes. *)
Fixpoint pruneLoop (cache entries : Cache) : Cache :=
  match entries with
  | [] => cache
  | (oldestId, _) :: entries' =>
      if MAX_SCREENSHOT_CACHE_ITEMS <? JS.map_size cache
      then pruneLoop (JS.map_delete oldestId cache) entries'
      else cache
  end.

Definition pruneScreenshotCache (cache : Cache) : Cache :=
  if JS.map_size cache <=? MAX_SCREENSHOT_CACHE_ITEMS then cache
  else pruneLoop cache (JS.sort_by timestampOrZero cache).

(** [setScreenshot(tabId, dataUrl, url)] (the specification's [put]);
    [now] is the value of [Date.now()]. *)
Definition setScreenshot (cache : Cache) (tabId : Z) (dataUrl : string)
    (url : option string) (now : Z) : Cache :=
  pruneScreenshotCache
    (JS.map_set tabId (mkEntry dataUrl (Some now) url) cache).

(** A sequence of [setScreenshot] calls, each given as
    [(tabId, dataUrl, url, now)]. *)
Definition setScreenshots (cache : Cache)
    (puts : list (Z * string * option string * Z)) : Cache :=
  foldl (λ cache '(tabId, dataUrl, url, now),
           setScreenshot cache tabId dataUrl url now) cache puts.

Definition deleteScreenshot (cache : Cache) (tabId : Z) : Cache :=
  JS.map_delete tabId cache.

(** The [for] loop of [getScreenshot] over [tabScreenshotCache.entries()]. *)
Fixpoint scanByUrl (entries : Cache) (url : string) : option string :=
  match entries with
  | [] => None
  | (_, cachedEntry) :: entries' =>
      if bool_decide (entry_url cachedEntry = Some url)
         && JS.truthy (entry_dataUrl cachedEntry)
      then Some (entry_dataUrl cachedEntry)
      else scanByUrl entries' url
  end.

(** [getScreenshot(tabId, url)]; [None] is [null]. *)
Definition getScreenshot (cache : Cache) (tabId : Z) (url : option string)
  : option string :=
  match JS.map_get tabId cache with
  | Some entry =>
      if JS.truthy (entry_dataUrl entry) then Some (entry_dataUrl entry)
      else if JS.truthy_opt url then scanByUrl cache (JS.or_empty url)
      else None
  | None =>
      if JS.truthy_opt url then scanByUrl cache (JS.or_empty url)
      else None
  end.

(** *** Toggling the switcher *)

Definition isRestrictedUrl (url : option string) : bool :=
  let url := default EmptyString url in
  JS.startsWith url "chrome://" ||
  JS.startsWith url "chrome-extension://" ||
  JS.startsWith url "edge://" ||
  JS.startsWith url "about:" ||
  JS.startsWith url "devtools://".

(** [{ ...t, screenshot: getScreenshot(t.id, t.url) || null }]. *)
Definition withScreenshot (cache : Cache) (t : Tab) : Tab :=
  {| tab_id := tab_id t; tab_url := tab_url t; tab_title := tab_title t;
     tab_screenshot :=
       match getScreenshot cache (tab_id t) (tab_url t) with
       | Some dataUrl => if JS.truthy dataUrl then Some dataUrl else None
       | None => None
       end |}.

(** [toggleTabSwitcher(direction)]. The results of the host queries are
    arguments: [activeTab] is the first tab of the active-tab query,
    [isLoaded] the result of [ensureContentScript], [allTabs] the tabs of
    the current window. The result is the message sent to the content
    script, [None] when the function returns without sending. *)
Definition toggleTabSwitcher (mruTabOrder : list Z) (cache : Cache)
    (activeTab : option Tab) (isLoaded : bool) (allTabs : list Tab)
    (direction : Direction) : option ToggleRequest :=
  match activeTab with
  | None => None
  | Some tab =>
      if tab_id tab =? 0 then None
      else if JS.truthy_opt (tab_url tab) && isRestrictedUrl (tab_url tab)
      then None
      else if negb isLoaded then None
      else
        let sortedTabs := sortTabsByMRU mruTabOrder allTabs in
        let tabsToSend := JS.slice0 sortedTabs 20 in
        let tabsWithScreenshots := withScreenshot cache <$> tabsToSend in
        Some {| req_tabs := Some tabsWithScreenshots;
                req_currentTabId := tab_id tab;
                req_direction := Some direction |}
  end.

(** *** The other updates of the MRU order *)

(** [chrome.windows.WINDOW_ID_NONE]. *)
Definition WINDOW_ID_NONE : Z := -1.

(** The [chrome.windows.onFocusChanged] listener's update of
    [mruTabOrder]; [tabs] is the result of the query for the active tab of
    the focused window. The list is not truncated here. *)
Definition onFocusChanged (mruTabOrder : list Z) (windowId : Z)
    (tabs : list Tab) : list Z :=
  if bool_decide (windowId = WINDOW_ID_NONE) then mruTabOrder
  else
    match tabs with
    | [] => mruTabOrder
    | tab :: _ =>
        let tabId := tab_id tab in
        tabId :: filter (λ id, id ≠ tabId) mruTabOrder
    end.

(** [new Set(ids)] as the list of its elements in iteration order: the
    order of first insertion. *)
Definition setOf (ids : list Z) : list Z :=
  foldl (λ s id, if decide (id ∈ s) then s else s ++ [id]) [] ids.

(** The initialisation of the MRU list when the worker starts (the
    specification's [reconcileOnInit]); a tab comes with its [active]
    flag, and the result is the new [mruTabOrder]. *)
Definition reconcileOnInit (mruTabOrder : list Z) (tabs : list (Tab * bool))
  : list Z :=
  let allTabIds := setOf ((λ t, tab_id t.1) <$> tabs) in
  let validMru := filter (λ id, id ∈ allTabIds) mruTabOrder in
  let activeTabs := filter (λ t, t.2 = true) tabs in
  let activeTabIds := setOf ((λ t, tab_id t.1) <$> activeTabs) in
  if JS.len validMru =? 0 then
    activeTabIds ++
    ((λ t, tab_id t.1) <$> filter (λ t, tab_id t.1 ∉ activeTabIds) tabs)
  else
    let validMru := filter (λ id, id ∉ activeTabIds) validMru in
    let validMru := activeTabIds ++ validMru in
    let knownIds := setOf validMru in
    let unknownTabs :=
      (λ t, tab_id t.1) <$> filter (λ t, tab_id t.1 ∉ knownIds) tabs in
    validMru ++ unknownTabs.

(** *** Persisting the screenshot cache *)

(** The [plainObject] that [persistScreenshotCache] stores: an object
    keyed by tab id. A key is the decimal string of the id, which
    [Number] turns back into the id on loading; the model keeps the id. *)
Definition plainObject (cache : Cache) : gmap Z Entry :=
  foldl (λ o '(id, entry), <[id := entry]> o) ∅ cache.

(** [loadScreenshotCache()] once the storage read has returned;
    [entries] is [Object.entries] of the stored object, and [cache] the
    map the entries are added to (empty when the worker starts). *)
Definition loadScreenshotCache (cache : Cache) (entries : list (Z * Entry))
  : Cache :=
  foldl (λ cache '(id, entry),
           if JS.truthy (entry_dataUrl entry) then JS.map_set id entry cache
           else cache)
        cache entries.

End Background.

(** ** Content script: the switcher controller *)

(** The host's [String.prototype.toLowerCase]. The controller's behaviour
    is proved for any such function; [ascii_strings] is the instance used
    in the examples. *)
Class HostStrings := { toLowerCase : string → string }.

Definition ascii_lower (c : ascii) : ascii :=
  let n := nat_of_ascii c in
  if ((65 <=? n) && (n <=? 90))%nat then ascii_of_nat (n + 32) else c.

Fixpoint ascii_toLowerCase (s : string) : string :=
  match s with
  | EmptyString => EmptyString
  | String c s' => String (ascii_lower c) (ascii_toLowerCase s')
  end.

Definition ascii_strings : HostStrings :=
  {| toLowerCase := ascii_toLowerCase |}.

Module Content.

(** [currentSettings.maxTabs]: ['auto'], or a string of which
    [parseInt(_, 10)] is an integer or [NaN]. *)
Inductive MaxTabs := Auto | Parsed (n : Z) | NotANumber.

Record Hotkeys := mkHotkeys {
  closeTab : option string;
  nextTab : option string;
  prevTab : option string
}.

(** The part of [currentSettings] the controller reads; [hotkeys] is
    missing in settings saved by an older options page. *)
Record Settings := mkSettings {
  maxTabs : MaxTabs;
  hotkeys : option Hotkeys
}.

(** The object read from storage by [loadSettings]: a field that is
    absent leaves the current value in place. *)
Record StoredSettings := mkStoredSettings {
  stored_maxTabs : option MaxTabs;
  stored_hotkeys : option Hotkeys
}.

(** The messages the content script sends to the background worker. *)
Inductive Request :=
| switcherShown
| switcherHidden
| switchToTabRequest (tabId : Z)
| closeTabRequest (tabId : Z).

(** The four tracked modifier keys. *)
Inductive Modifier := Control | Meta | Shift | Alt.

(** The script's module-level variables. [shadowRoot] records whether
    the overlay with its grid exists; [sent] is the list of messages sent
    so far, oldest first. [autoSwitchTimer] is always [null] and is left
    out. *)
Record State := mkState {
  switcherVisible : bool;
  shadowRoot : bool;
  currentTabs : list Tab;
  currentTabId : option Z;
  selectedIndex : Z;
  searchQuery : string;
  ctrlPressed : bool;
  metaPressed : bool;
  shiftPressed : bool;
  altPressed : bool;
  currentSettings : Settings;
  sent : list Request
}.

Definition defaultSettings : Settings :=
  {| maxTabs := Auto;
     hotkeys := Some {| closeTab := Some "w"%string;
                        nextTab := Some "ArrowRight"%string;
                        prevTab := Some "ArrowLeft"%string |} |}.

(** The state when the script has loaded. *)
Definition initial : State :=
  {| switcherVisible := false; shadowRoot := false; currentTabs := [];
     currentTabId := None; selectedIndex := 0; searchQuery := EmptyString;
     ctrlPressed := false; metaPressed := false; shiftPressed := false;
     altPressed := false; currentSettings := defaultSettings; sent := [] |}.

(** Assignments to single variables. *)
Definition set_currentTabs (v : list Tab) (st : State) : State :=
  mkState (switcherVisible st) (shadowRoot st) v (currentTabId st)
    (selectedIndex st) (searchQuery st) (ctrlPressed st) (metaPressed st)
    (shiftPressed st) (altPressed st) (currentSettings st) (sent st).

Definition set_currentTabId (v : option Z) (st : State) : State :=
  mkState (switcherVisible st) (shadowRoot st) (currentTabs st) v
    (selectedIndex st) (searchQuery st) (ctrlPressed st) (metaPressed st)
    (shiftPressed st) (altPressed st) (currentSettings st) (sent st).

Definition set_selectedIndex (v : Z) (st : State) : State :=
  mkState (switcherVisible st) (shadowRoot st) (currentTabs st)
    (currentTabId st) v (searchQuery st) (ctrlPressed st) (metaPressed st)
    (shiftPressed st) (altPressed st) (currentSettings st) (sent st).

Definition set_currentSettings (v : Settings) (st : State) : State :=
  mkState (switcherVisible st) (shadowRoot st) (currentTabs st)
    (currentTabId st) (selectedIndex st) (searchQuery st) (ctrlPressed st)
    (metaPressed st) (shiftPressed st) (altPressed st) v (sent st).

(** [chrome.runtime.sendMessage(r, ...)]. *)
Definition sendMessage (r : Request) (st : State) : State :=
  mkState (switcherVisible st) (shadowRoot st) (currentTabs st)
    (currentTabId st) (selectedIndex st) (searchQuery st) (ctrlPressed st)
    (metaPressed st) (shiftPressed st) (altPressed st) (currentSettings st)
    (sent st ++ [r]).

(** Assignment to the flag of one modifier. *)
Definition set_pressed (m : Modifier) (v : bool) (st : State) : State :=
  mkState (switcherVisible st) (shadowRoot st) (currentTabs st)
    (currentTabId st) (selectedIndex st) (searchQuery st)
    (match m with Control => v | _ => ctrlPressed st end)
    (match m with Meta => v | _ => metaPressed st end)
    (match m with Shift => v | _ => shiftPressed st end)
    (match m with Alt => v | _ => altPressed st end)
    (currentSettings st) (sent st).

Definition pressed (m : Modifier) (st : State) : bool :=
  match m with
  | Control => ctrlPressed st
  | Meta => metaPressed st
  | Shift => shiftPressed st
  | Alt => altPressed st
  end.

(** The value of [e.key] for a modifier. *)
Definition key_of (m : Modifier) : string :=
  match m with
  | Control => "Control"
  | Meta => "Meta"
  | Shift => "Shift"
  | Alt => "Alt"
  end.

Definition key_is (key : string) (name : string) : bool :=
  bool_decide (key = name).

(** [e.key === 'Control' || e.key === 'Meta' || e.key === 'Alt' ||
    e.key === 'Shift']. *)
Definition isModifierKey (key : string) : bool :=
  key_is key "Control" || key_is key "Meta" || key_is key "Alt"
  || key_is key "Shift".

(** [!ctrlPressed && !metaPressed && !altPressed && !shiftPressed]. *)
Definition noModifierHeld (st : State) : bool :=
  negb (ctrlPressed st) && negb (metaPressed st) && negb (altPressed st)
  && negb (shiftPressed st).

Section handlers.
Context `{HostStrings}.

(** The statements [if (e.key === 'Control') ctrlPressed = v; ...] at
    the head of every key listener. *)
Definition trackModifiers (key : string) (v : bool) (st : State) : State :=
  let st := if key_is key "Control" then set_pressed Control v st else st in
  let st := if key_is key "Meta" then set_pressed Meta v st else st in
  let st := if key_is key "Shift" then set_pressed Shift v st else st in
  if key_is key "Alt" then set_pressed Alt v st else st.

Definition resetModifiers (st : State) : State :=
  set_pressed Alt false
    (set_pressed Shift false
       (set_pressed Meta false (set_pressed Control false st))).

(** The window [blur] listener. *)
Definition onBlur (st : State) : State := resetModifiers st.

(** [getMaxTabsForWidth()]; [None] is [NaN]. *)
Definition getMaxTabsForWidth (settings : Settings) (innerWidth : Z)
  : option Z :=
  match maxTabs settings with
  | Parsed n => Some n
  | NotANumber => None
  | Auto =>
      let windowWidth := innerWidth in
      let tabWidth := 160 in
      let tabGap := 8 in
      let containerPadding := 24 in
      let minMargin := 100 in
      let availableWidth := windowWidth - minMargin * 2 - containerPadding in
      let maxTabs := (availableWidth + tabGap) / (tabWidth + tabGap) in
      Some (Z.max 1 maxTabs)
  end.

(** [tabs.slice(0, maxTabs)]; [slice(0, NaN)] is empty. *)
Definition limitTabs (tabs : list Tab) (maxTabs : option Z) : list Tab :=
  match maxTabs with
  | Some n => JS.slice0 tabs n
  | None => []
  end.

(** The predicate of the [filter] in [getFilteredTabs]. *)
Definition matchesQuery (query : string) (tab : Tab) : bool :=
  let title := toLowerCase (JS.or_empty (tab_title tab)) in
  let url := toLowerCase (JS.or_empty (tab_url tab)) in
  JS.includes title query || JS.includes url query.

Definition getFilteredTabs (st : State) : list Tab :=
  if negb (JS.truthy (searchQuery st)) then currentTabs st
  else
    let query := toLowerCase (searchQuery st) in
    filter (λ tab, matchesQuery query tab) (currentTabs st).

(** The part of [renderTabs] that writes a variable: the adjustment of
    [selectedIndex], done only when the grid exists. *)
Definition renderTabs (st : State) : State :=
  if negb (shadowRoot st) then st
  else
    let filteredTabs := getFilteredTabs st in
    let st :=
      if JS.len filteredTabs <=? selectedIndex st
      then set_selectedIndex (JS.len filteredTabs - 1) st else st in
    if selectedIndex st <? 0 then set_selectedIndex 0 st else st.

(** [loadSettings()] once the storage read has returned [stored]
    ([None]: nothing stored, or the read failed). *)
Definition loadSettings (stored : option StoredSettings) (st : State)
  : State :=
  match stored with
  | None => st
  | Some s =>
      set_currentSettings
        {| maxTabs := default (maxTabs (currentSettings st))
                        (stored_maxTabs s);
           hotkeys := match stored_hotkeys s with
                      | Some h => Some h
                      | None => hotkeys (currentSettings st)
                      end |} st
  end.

(** [showSwitcher()] from [await loadSettings()] on: the function is
    only called with the switcher hidden, so it always reaches the
    [await]. *)
Definition showSwitcher_resume (stored : option StoredSettings)
    (st : State) : State :=
  let st := loadSettings stored st in
  let st :=
    mkState true true (currentTabs st) (currentTabId st)
      (selectedIndex st) EmptyString (ctrlPressed st) (metaPressed st)
      (shiftPressed st) (altPressed st) (currentSettings st) (sent st) in
  let st := sendMessage switcherShown st in
  renderTabs st.

Definition hideSwitcher (st : State) : State :=
  if negb (switcherVisible st) then st
  else
    sendMessage switcherHidden
      (mkState false false (currentTabs st) (currentTabId st)
         (selectedIndex st) EmptyString false false false false
         (currentSettings st) (sent st)).

(** The [toggleSwitcher] branch of the message listener, up to the
    [await] inside [showSwitcher()] when the switcher is hidden. *)
Definition onToggleSwitcher (request : ToggleRequest) (innerWidth : Z)
    (st : State) : State :=
  let st := set_currentTabs (default [] (req_tabs request)) st in
  let st := set_currentTabId (Some (req_currentTabId request)) st in
  let direction := default Forward (req_direction request) in
  let maxTabs := getMaxTabsForWidth (currentSettings st) innerWidth in
  let limitedTabs := limitTabs (currentTabs st) maxTabs in
  let st := set_currentTabs limitedTabs st in
  if switcherVisible st then
    let filteredTabs := getFilteredTabs st in
    if 0 <? JS.len filteredTabs then
      let st :=
        match direction with
        | Forward =>
            set_selectedIndex
              (JS.rem (selectedIndex st + 1) (JS.len filteredTabs)) st
        | Backward =>
            set_selectedIndex
              (JS.rem (selectedIndex st - 1 + JS.len filteredTabs)
                 (JS.len filteredTabs)) st
        end in
      renderTabs st
    else st
  else
    match direction with
    | Forward =>
        set_selectedIndex
          (if 1 <? JS.len (currentTabs st) then 1 else 0) st
    | Backward =>
        set_selectedIndex
          (if 1 <? JS.len (currentTabs st)
           then JS.len (currentTabs st) - 1 else 0) st
    end.

(** [closeSelectedTab()], up to the sending of the request. *)
Definition closeSelectedTab (st : State) : State :=
  let filteredTabs := getFilteredTabs st in
  if JS.len filteredTabs =? 0 then st
  else
    match JS.at_index filteredTabs (selectedIndex st) with
    | None => st
    | Some tabToClose =>
        if bool_decide (Some (tab_id tabToClose) = currentTabId st) then st
        else sendMessage (closeTabRequest (tab_id tabToClose)) st
    end.

(** The callback of the [closeTab] request for the tab [tabId].
    [response] is [None] when [chrome.runtime.lastError] is set (no
    response arrived) and otherwise holds the [success] field of the
    response, which the callback does not read. *)
Definition onCloseTabResponse (tabId : Z) (response : option bool)
    (st : State) : State :=
  match response with
  | None => st
  | Some _ =>
      let st :=
        set_currentTabs (filter (λ t, tab_id t ≠ tabId) (currentTabs st)) st in
      let st :=
        if JS.len (currentTabs st) <=? selectedIndex st
        then set_selectedIndex (Z.max 0 (JS.len (currentTabs st) - 1)) st
        else st in
      if JS.len (currentTabs st) =? 0 then hideSwitcher st
      else renderTabs st
  end.

(** [s || d] for a hotkey setting. *)
Definition hotkeyOr (s : option string) (d : string) : string :=
  if JS.truthy_opt s then JS.or_empty s else d.

Definition handleGlobalKeydown (key : string) (st : State) : State :=
  let st := trackModifiers key true st in
  if negb (switcherVisible st) then st
  else if key_is key "Escape" then hideSwitcher st
  else
    let hk := default (mkHotkeys None None None)
                (hotkeys (currentSettings st)) in
    let closeTabKey := toLowerCase (hotkeyOr (closeTab hk) "w") in
    let nextTabKey := hotkeyOr (nextTab hk) "ArrowRight" in
    let prevTabKey := hotkeyOr (prevTab hk) "ArrowLeft" in
    if key_is (toLowerCase key) closeTabKey then closeSelectedTab st
    else if key_is key nextTabKey then
      let filteredTabs := getFilteredTabs st in
      if 0 <? JS.len filteredTabs then
        renderTabs
          (set_selectedIndex
             (JS.rem (selectedIndex st + 1) (JS.len filteredTabs)) st)
      else st
    else if key_is key prevTabKey then
      let filteredTabs := getFilteredTabs st in
      if 0 <? JS.len filteredTabs then
        renderTabs
          (set_selectedIndex
             (JS.rem (selectedIndex st - 1 + JS.len filteredTabs)
                (JS.len filteredTabs)) st)
      else st
    else st.

(** [switchToTab(tabId)], up to the sending of the request. *)
Definition switchToTab (tabId : Z) (st : State) : State :=
  sendMessage (switchToTabRequest tabId) st.

(** The callback of the [switchToTab] request. *)
Definition onSwitchToTabResponse (st : State) : State := hideSwitcher st.

Definition handleGlobalKeyup (key : string) (st : State) : State :=
  let st := trackModifiers key false st in
  if negb (switcherVisible st) then st
  else if isModifierKey key then
    if noModifierHeld st then
      let filteredTabs := getFilteredTabs st in
      match JS.at_index filteredTabs (selectedIndex st) with
      | Some tab => switchToTab (tab_id tab) st
      | None => st
      end
    else st
  else st.

(** The [mouseenter] listener of the card with index [index]. *)
Definition onMouseEnter (index : nat) (st : State) : State :=
  renderTabs (set_selectedIndex (Z.of_nat index) st).

(** The events the script reacts to. A key event first reaches the
    document-level tracking listener, registered when the script
    loads, then [handleGlobalKeydown] / [handleGlobalKeyup]. These two
    are registered exactly while the switcher is visible; when it is
    hidden they would only repeat the tracking, so running them always
    gives the same state. [SettingsLoaded] resumes a [showSwitcher()]
    suspended by a [ToggleSwitcher] that found the switcher hidden. *)
Inductive Event :=
| ToggleSwitcher (request : ToggleRequest) (innerWidth : Z)
| SettingsLoaded (stored : option StoredSettings)
| KeyDown (key : string)
| KeyUp (key : string)
| Blur
| MouseEnter (index : nat)
| SwitchToTabResponse
| CloseTabResponse (tabId : Z) (response : option bool).

Definition step (st : State) (e : Event) : State :=
  match e with
  | ToggleSwitcher request innerWidth =>
      onToggleSwitcher request innerWidth st
  | SettingsLoaded stored => showSwitcher_resume stored st
  | KeyDown key => handleGlobalKeydown key (trackModifiers key true st)
  | KeyUp key => handleGlobalKeyup key (trackModifiers key false st)
  | Blur => onBlur st
  | MouseEnter index => onMouseEnter index st
  | SwitchToTabResponse => onSwitchToTabResponse st
  | CloseTabResponse tabId response =>
      onCloseTabResponse tabId response st
  end.

Definition run (st : State) (events : list Event) : State :=
  foldl step st events.
End handlers.


(** The hotkeys as [handleGlobalKeydown] reads them, with its fallbacks. *)
Definition hotkeysOf (settings : Settings) : Hotkeys :=
  default (mkHotkeys None None None) (hotkeys settings).

Definition nextTabKey (settings : Settings) : string :=
  hotkeyOr (nextTab (hotkeysOf settings)) "ArrowRight".

Definition prevTabKey (settings : Settings) : string :=
  hotkeyOr (prevTab (hotkeysOf settings)) "ArrowLeft".

Section feasibility.
Context `{HostStrings}.

Definition closeTabKey (settings : Settings) : string :=
  toLowerCase (hotkeyOr (closeTab (hotkeysOf settings)) "w").

(** A [mouseenter] event comes from a card, so it needs the grid. *)
Definition enabled (st : State) (e : Event) : Prop :=
  match e with
  | MouseEnter _ => shadowRoot st = true
  | _ => True
  end.

(** A sequence of events each of which is enabled when it happens. *)
Fixpoint feasible (st : State) (events : list Event) : Prop :=
  match events with
  | [] => True
  | e :: events' => enabled st e ∧ feasible (step st e) events'
  end.
End feasibility.

(** What the controller keeps true of its variables: the search query
    is empty, the overlay exists exactly while the switcher is visible,
    and the selected index is a position of the tab list when the list is
    not empty. *)
Definition sessionInvariant (st : State) : Prop :=
  searchQuery st = EmptyString ∧
  shadowRoot st = switcherVisible st ∧
  0 ≤ selectedIndex st ∧
  (currentTabs st ≠ [] → selectedIndex st < JS.len (currentTabs st)).

(** The title [renderTabs] shows on a card. *)
Definition displayTitle (tab : Tab) : string :=
  let title :=
    if JS.truthy_opt (tab_title tab) then JS.or_empty (tab_title tab)
    else "Untitled"%string in
  if 30 <? Z.of_nat (String.length title)
  then String.append (String.substring 0 27 title) "..."
  else title.

End Content.

(** ** The capture-suppression flag of the background worker *)

Module Messages.

(** The background worker's message listener, as far as it writes its
    [switcherVisible] flag. *)
Definition onMessage (switcherVisible : bool) (request : Content.Request)
  : bool :=
  match request with
  | Content.switcherShown => true
  | Content.switcherHidden => false
  | _ => switcherVisible
  end.

(** The flag after the messages of a list have been handled in order. *)
Definition flagAfter (switcherVisible : bool)
    (requests : list Content.Request) : bool :=
  foldl onMessage switcherVisible requests.

End Messages.

(** ** Options page: recording a hotkey *)

Module Options.

(** What [setupHotkeyButton(btn, settings)] sets up for one button.
    Every click that starts a recording creates a new [handleKeydown]
    closure; closures are numbered by creation. [listeners] are the
    closures registered on the document, in registration order,
    [suspended] are the calls of [handleKeydown] waiting at
    [await saveSettings(settings)], each given by its closure, and
    [hotkeys] is the object [settings.hotkeys]. *)
Record Button := mkButton {
  isRecording : bool;
  listeners : list nat;
  created : nat;
  suspended : list nat;
  hotkeys : gmap string string
}.

(** [['Control', 'Alt', 'Shift', 'Meta'].includes(key)]. *)
Definition isModifier (key : string) : bool :=
  bool_decide (key ∈ ["Control"; "Alt"; "Shift"; "Meta"]%string).

(** [document.removeEventListener('keydown', handleKeydown, true)]. *)
Definition removeEventListener (self : nat) (b : Button) : Button :=
  mkButton (isRecording b) (filter (λ l, l ≠ self) (listeners b))
    (created b) (suspended b) (hotkeys b).

Definition set_isRecording (v : bool) (b : Button) : Button :=
  mkButton v (listeners b) (created b) (suspended b) (hotkeys b).

(** The closure [self] of [handleKeydown], up to its [await]. *)
Definition handleKeydown (action : string) (self : nat) (key : string)
    (b : Button) : Button :=
  if isModifier key then b
  else if bool_decide (key = "Escape"%string)
  then removeEventListener self (set_isRecording false b)
  else mkButton (isRecording b) (listeners b) (created b)
         (suspended b ++ [self]) (<[action := key]> (hotkeys b)).

(** [handleKeydown] after [await saveSettings(settings)]. *)
Definition handleKeydown_resume (self : nat) (b : Button) : Button :=
  removeEventListener self (set_isRecording false b).

(** The button's click listener. *)
Definition onClick (b : Button) : Button :=
  if isRecording b then b
  else mkButton true (listeners b ++ [created b]) (S (created b))
         (suspended b) (hotkeys b).

(** What happens to a button: a click on it, a key-down on the
    document, and the return of [await saveSettings(settings)] in the
    suspended call number [i]. *)
Inductive Event := Click | Keydown (key : string) | Saved (i : nat).

(** A key-down runs the listeners registered when it is dispatched, in
    registration order. *)
Definition step (action : string) (b : Button) (e : Event) : Button :=
  match e with
  | Click => onClick b
  | Keydown key =>
      foldl (λ b self, handleKeydown action self key b) b (listeners b)
  | Saved i =>
      match suspended b !! i with
      | None => b
      | Some self =>
          handleKeydown_resume self
            (mkButton (isRecording b) (listeners b) (created b)
               (delete i (suspended b)) (hotkeys b))
      end
  end.

Definition run (action : string) (b : Button) (events : list Event)
  : Button :=
  foldl (step action) b events.

(** The keys that cannot be recorded. *)
Definition reserved : list string :=
  ["Control"; "Alt"; "Shift"; "Meta"; "Escape"]%string.

(** The button of a page that has just been set up. *)
Definition fresh (h : gmap string string) : Button :=
  mkButton false [] 0 [] h.

(** What events may do to the entry [a] of [settings.hotkeys]. *)
Definition recorded (action : string) (b b' : Button) (a : string) : Prop :=
  hotkeys b' !! a = hotkeys b !! a ∨
  (a = action ∧ ∃ key, hotkeys b' !! a = Some key ∧ key ∉ reserved).

(** The closure of the latest click is registered while the button is
    recording. *)
Definition listening (b : Button) : Prop :=
  isRecording b = true → ∃ n, created b = S n ∧ n ∈ listeners b.

End Options.

(** * Properties *)

(** ** MRU order under activations *)

Section mru_facts.
Import Background.
Implicit Types (mru start calls : list Z) (x tabId : Z).

Lemma onActivated_take mru x :
  onActivated mru x = take 100 (unbounded mru x).
Proof.
  rewrite /onActivated /unbounded /JS.len /JS.slice0.
  case: Z.ltb_spec => Hlen; first done.
  rewrite take_ge //. lia.
Qed.

Lemma filter_all {A} (P : A → Prop) `{!∀ a, Decision (P a)} (l : list A) :
  (∀ a, a ∈ l → P a) → filter P l = l.
Proof.
  elim: l => [//|a l IH] Hall.
  rewrite filter_cons_True; first by apply Hall; left.
  rewrite IH // => b Hb. by apply Hall; right.
Qed.

Lemma filter_none {A} (P : A → Prop) `{!∀ a, Decision (P a)} (l : list A) :
  (∀ a, a ∈ l → ¬ P a) → filter P l = [].
Proof.
  elim: l => [//|a l IH] Hnone.
  rewrite filter_cons_False; first by apply Hnone; left.
  apply: IH => b Hb. by apply Hnone; right.
Qed.

Lemma filter_ne_id mru x : x ∉ mru → filter (λ id, id ≠ x) mru = mru.
Proof. move=> Hx. apply: filter_all => id Hid ?. by subst. Qed.

Lemma take_filter_ne_take mru x (n : nat) :
  NoDup mru →
  take n (filter (λ id, id ≠ x) (take (S n) mru)) =
  take n (filter (λ id, id ≠ x) mru).
Proof.
  elim: mru n => [//|y mru IH] n /NoDup_cons [Hy Hnd].
  rewrite firstn_cons.
  case: (decide (y = x)) => [?|Hne].
  - subst y.
    have Hx : x ∉ take n mru.
    { move=> Hin. apply: Hy. by eapply subseteq_take. }
    rewrite !filter_cons_False; try (by intros []).
    rewrite !filter_ne_id //.
    by rewrite take_idemp.
  - rewrite !filter_cons_True //.
    case: n => [//|n] /=. by rewrite IH.
Qed.

Lemma remove_dups_snoc calls x :
  remove_dups (calls ++ [x]) =
  filter (λ id, id ≠ x) (remove_dups calls) ++ [x].
Proof.
  elim: calls => [//|y calls IH] /=.
  have Hiff : y ≠ x → y ∈ calls ++ [x] ↔ y ∈ calls.
  { rewrite elem_of_app list_elem_of_singleton. tauto. }
  case: (decide (y = x)) => [?|Hne].
  - subst y. rewrite decide_True; first by apply elem_of_app; right; left.
    rewrite IH. case_decide; first done.
    rewrite filter_cons_False //. tauto.
  - case_decide as H1; case_decide as H2.
    + done.
    + by case: H2; apply Hiff.
    + by case: H1; apply Hiff.
    + by rewrite filter_cons_True // IH.
Qed.

(** Without the limit, the list after a sequence of activations is the
    activated ids by recency, followed by the ids never activated in
    their initial order. *)
Lemma unbounded_sequence start calls :
  foldl unbounded start calls =
  recency calls ++ filter (λ id, id ∉ calls) start.
Proof.
  elim/rev_ind: calls => [|x calls IH].
  - rewrite /= /recency /= filter_all // => id _. by apply not_elem_of_nil.
  - rewrite foldl_snoc IH /unbounded /recency remove_dups_snoc.
    rewrite reverse_snoc filter_app filter_reverse /=. do 2 f_equal.
    rewrite list_filter_filter. apply: list_filter_iff => id.
    rewrite elem_of_app list_elem_of_singleton. tauto.
Qed.

Lemma unbounded_sequence_NoDup start calls :
  NoDup start → NoDup (foldl unbounded start calls).
Proof.
  move=> Hnd. rewrite unbounded_sequence. apply NoDup_app. split_and!.
  - rewrite /recency. setoid_rewrite reverse_Permutation.
    apply NoDup_remove_dups.
  - move=> id. rewrite /recency elem_of_reverse elem_of_remove_dups.
    move=> Hin /list_elem_of_filter [Hout _]. by apply: Hout.
  - by apply NoDup_filter.
Qed.

(** Truncating after every activation gives the same list as truncating
    once at the end, because the list never holds an id twice. *)
Lemma onActivated_sequence_take start calls x :
  NoDup start →
  foldl onActivated start (calls ++ [x]) =
  take 100 (foldl unbounded start (calls ++ [x])).
Proof.
  move=> Hnd. elim/rev_ind: calls x => [|y calls IH] x.
  - by rewrite /= onActivated_take.
  - rewrite foldl_snoc IH onActivated_take (foldl_snoc _ _ _ x).
    rewrite /unbounded -/(unbounded _ y) /=. f_equal.
    apply: (take_filter_ne_take _ x 99).
    exact: unbounded_sequence_NoDup.
Qed.

Lemma take_NoDup {A} (l : list A) n : NoDup l → NoDup (take n l).
Proof.
  move=> Hnd. apply: sublist_NoDup; first exact: Hnd. apply sublist_take.
Qed.

(** C2. After any non-empty sequence of activations starting from a
    duplicate-free list, the MRU list holds no id twice, has the id
    activated last at its front, is at most 100 long, and is the first
    100 entries of: the activated ids by recency (most recent first),
    then the never activated ids in their initial order.  The limit only
    drops entries from the tail: the list is a prefix of the list the
    last activation built before truncating. *)
Theorem onActivated_sequence_invariant start calls x :
  NoDup start →
  let mru := foldl onActivated start (calls ++ [x]) in
  NoDup mru ∧
  head mru = Some x ∧
  (length mru ≤ 100)%nat ∧
  mru = take 100 (recency (calls ++ [x]) ++
                  filter (λ id, id ∉ calls ++ [x]) start) ∧
  mru `prefix_of` unbounded (foldl onActivated start calls) x.
Proof.
  move=> Hnd mru. have Hmru := onActivated_sequence_take start calls x Hnd.
  rewrite -/mru in Hmru. split_and!.
  - rewrite Hmru. by apply take_NoDup, unbounded_sequence_NoDup.
  - by rewrite Hmru foldl_snoc.
  - rewrite Hmru length_take. lia.
  - by rewrite Hmru unbounded_sequence.
  - rewrite /mru foldl_snoc onActivated_take. apply prefix_take.
Qed.

Lemma onActivated_sequence_invariant_witness :
  let mru := foldl onActivated [1; 2; 3] ([2; 1] ++ [2]) in
  NoDup mru ∧
  head mru = Some 2 ∧
  (length mru ≤ 100)%nat ∧
  mru = take 100 (recency ([2; 1] ++ [2]) ++
                  filter (λ id, id ∉ [2; 1] ++ [2]) [1; 2; 3]) ∧
  mru `prefix_of` unbounded (foldl onActivated [1; 2; 3] [2; 1]) 2.
Proof.
  apply (onActivated_sequence_invariant [1; 2; 3] [2; 1] 2).
  compute_done.
Defined.
End mru_facts.

(** ** Sorting the live tabs by MRU order *)

Section sort_facts.
Import Background.
Implicit Types (mru : list Z) (tabs known : list Tab) (tab : Tab) (id : Z).

Lemma tabMap_snoc tabs tab :
  tabMap (tabs ++ [tab]) = <[tab_id tab := tab]> (tabMap tabs).
Proof. by rewrite /tabMap foldl_snoc. Qed.

Lemma tabMap_lookup_Some tabs id tab :
  tabMap tabs !! id = Some tab → tab ∈ tabs ∧ tab_id tab = id.
Proof.
  elim/rev_ind: tabs => [|t tabs IH]; first by rewrite /tabMap /= lookup_empty.
  rewrite tabMap_snoc lookup_insert. case_decide as Hid.
  - move=> [<-]. split; last done. apply elem_of_app. right. by left.
  - move=> /IH [Hin ?]. split; last done. apply elem_of_app. by left.
Qed.

Lemma tabMap_lookup_is_Some tabs id :
  id ∈ tab_id <$> tabs → is_Some (tabMap tabs !! id).
Proof.
  elim/rev_ind: tabs => [|t tabs IH]; first by move=> /elem_of_nil.
  rewrite fmap_app elem_of_app tabMap_snoc lookup_insert /=.
  case_decide as Hid; first by eauto.
  move=> [/IH //|/list_elem_of_singleton ?]. by subst.
Qed.

Lemma tabMap_lookup_NoDup tabs tab :
  NoDup (tab_id <$> tabs) → tab ∈ tabs →
  tabMap tabs !! tab_id tab = Some tab.
Proof.
  move=> Hnd Hin.
  have [t Ht] : is_Some (tabMap tabs !! tab_id tab).
  { apply tabMap_lookup_is_Some, list_elem_of_fmap. by exists tab. }
  rewrite Ht. f_equal.
  have [Htin Hid] := tabMap_lookup_Some _ _ _ Ht.
  move: Htin Hin => /list_elem_of_lookup [i Hi] /list_elem_of_lookup [j Hj].
  have Heq : i = j.
  { apply: (NoDup_lookup _ _ _ (tab_id tab) Hnd);
      by rewrite list_lookup_fmap ?Hi ?Hj /= ?Hid. }
  subst j. congruence.
Qed.

Lemma mruLoop_spec tm mru :
  (mruLoop tm mru).1 = omap (λ id, tm !! id) mru ∧
  ∀ id, id ∈ (mruLoop tm mru).2 ↔ id ∈ mru ∧ is_Some (tm !! id).
Proof.
  rewrite /mruLoop.
  set step := (X in foldl X).
  have Hgen : ∀ sortedTabs (addedIds : gset Z),
    (foldl step (sortedTabs, addedIds) mru).1 =
      sortedTabs ++ omap (λ id, tm !! id) mru ∧
    ∀ id, id ∈ (foldl step (sortedTabs, addedIds) mru).2 ↔
          id ∈ addedIds ∨ (id ∈ mru ∧ is_Some (tm !! id)).
  { elim: mru => [|i mru IH] sortedTabs addedIds /=.
    - rewrite app_nil_r. split; first done. move=> id.
      rewrite elem_of_nil. tauto.
    - case Hi: (tm !! i) => [tab|] /=.
      + have [-> Hset] := IH (sortedTabs ++ [tab]) ({[i]} ∪ addedIds).
        rewrite -app_assoc. split; first done. move=> id.
        rewrite Hset elem_of_union elem_of_singleton elem_of_cons.
        split; last by (intuition idtac); subst; eauto.
        move=> [[->|?]|[? ?]]; eauto.
      + have [-> Hset] := IH sortedTabs addedIds.
        split; first done. move=> id. rewrite Hset elem_of_cons.
        split; first by intuition idtac.
        move=> [?|[[->|?] His]]; eauto. move: His. rewrite Hi.
        by move=> [? ?]. }
  have [-> Hset] := Hgen [] ∅. split; first done.
  move=> id. rewrite Hset elem_of_empty. tauto.
Qed.

Lemma restLoop_spec addedIds sortedTabs tabs :
  restLoop addedIds sortedTabs tabs =
  sortedTabs ++ filter (λ tab, tab_id tab ∉ addedIds) tabs.
Proof.
  rewrite /restLoop. elim: tabs sortedTabs => [|tab tabs IH] sortedTabs /=.
  - by rewrite app_nil_r.
  - rewrite IH. case_decide as Hin.
    + rewrite filter_cons_False //. tauto.
    + by rewrite filter_cons_True // -app_assoc.
Qed.

Lemma filter_ext_elem {A} (P Q : A → Prop) `{!∀ a, Decision (P a)}
    `{!∀ a, Decision (Q a)} (l : list A) :
  (∀ a, a ∈ l → P a ↔ Q a) → filter P l = filter Q l.
Proof.
  elim: l => [//|a l IH] Hall.
  have Ha : P a ↔ Q a by apply Hall; left.
  have Hl : filter P l = filter Q l by apply IH => b Hb; apply Hall; right.
  rewrite !filter_cons Hl. by repeat case_decide; tauto.
Qed.

(** The two loops as one expression: the live tabs found through the MRU
    list, then the live tabs whose id the MRU list does not hold. *)
Lemma sortTabsByMRU_eq mru tabs :
  sortTabsByMRU mru tabs =
  omap (λ id, tabMap tabs !! id) mru ++
  filter (λ tab, tab_id tab ∉ mru) tabs.
Proof.
  rewrite /sortTabsByMRU.
  have [Hsorted Hadded] := mruLoop_spec (tabMap tabs) mru.
  case: (mruLoop _ _) Hsorted Hadded => sortedTabs addedIds /= -> Hadded.
  rewrite restLoop_spec. f_equal. apply: filter_ext_elem => tab Hin.
  have His : is_Some (tabMap tabs !! tab_id tab).
  { apply tabMap_lookup_is_Some, list_elem_of_fmap. by exists tab. }
  rewrite Hadded. tauto.
Qed.

Lemma known_ids mru tabs :
  tab_id <$> omap (λ id, tabMap tabs !! id) mru =
  filter (λ id, id ∈ tab_id <$> tabs) mru.
Proof.
  elim: mru => [//|id mru IH] /=.
  case Hid: (tabMap tabs !! id) => [tab|] /=.
  - have [Hin Heq] := tabMap_lookup_Some _ _ _ Hid.
    rewrite filter_cons_True.
    { apply list_elem_of_fmap. by exists tab. }
    by rewrite Heq -IH.
  - rewrite filter_cons_False; last exact: IH.
    move=> /tabMap_lookup_is_Some. rewrite Hid. by move=> [? ?].
Qed.

Lemma known_elem_of mru tabs tab :
  NoDup (tab_id <$> tabs) →
  tab ∈ omap (λ id, tabMap tabs !! id) mru ↔
  tab ∈ tabs ∧ tab_id tab ∈ mru.
Proof.
  move=> Hnd. rewrite list_elem_of_omap. split.
  - move=> [id [Hid /tabMap_lookup_Some [Hin Heq]]]. by subst.
  - move=> [Hin Hmru]. exists (tab_id tab). split; first done.
    exact: tabMap_lookup_NoDup.
Qed.

(** C1. With an MRU list that holds no id twice and live tabs with
    distinct ids (the data model's invariants), the result of
    [sortTabsByMRU] is [known ++ unknown] where the ids of [known] are
    the MRU list's ids that have a live tab, in MRU order (ids without a
    live tab are skipped), [unknown] is the live tabs whose id the MRU
    list does not hold, in input order, and the result is a permutation
    of the input: exactly the input tabs, each once. *)
Theorem sortTabsByMRU_stable_partition mru tabs :
  NoDup mru → NoDup (tab_id <$> tabs) →
  ∃ known unknown,
    sortTabsByMRU mru tabs = known ++ unknown ∧
    tab_id <$> known = filter (λ id, id ∈ tab_id <$> tabs) mru ∧
    unknown = filter (λ tab, tab_id tab ∉ mru) tabs ∧
    sortTabsByMRU mru tabs ≡ₚ tabs.
Proof.
  move=> Hmru Hids.
  exists (omap (λ id, tabMap tabs !! id) mru),
         (filter (λ tab, tab_id tab ∉ mru) tabs).
  split_and!; [exact: sortTabsByMRU_eq|exact: known_ids|done|].
  rewrite sortTabsByMRU_eq -{3}(filter_app_complement (λ tab, tab_id tab ∈ mru) tabs).
  f_equiv. apply NoDup_Permutation.
  - apply: (NoDup_fmap_1 tab_id). rewrite known_ids. exact: NoDup_filter.
  - apply NoDup_filter. exact: NoDup_fmap_1 Hids.
  - move=> tab. rewrite known_elem_of // list_elem_of_filter. tauto.
Qed.

Lemma sortTabsByMRU_stable_partition_witness :
  let tabs := [mkTab 1 None None None; mkTab 2 None None None;
               mkTab 3 None None None; mkTab 4 None None None] in
  ∃ known unknown,
    sortTabsByMRU [3; 9; 1] tabs = known ++ unknown ∧
    tab_id <$> known = filter (λ id, id ∈ tab_id <$> tabs) [3; 9; 1] ∧
    unknown = filter (λ tab, tab_id tab ∉ [3; 9; 1]) tabs ∧
    sortTabsByMRU [3; 9; 1] tabs ≡ₚ tabs.
Proof.
  apply (sortTabsByMRU_stable_partition [3; 9; 1]); compute_done.
Defined.
End sort_facts.

(** ** The stable sort and the ordered map *)

Section sort_by_facts.
Context {A : Type} (key : A → Z).
Implicit Types (x y : A) (l : list A).

Let le_key : relation A := λ a b, key a ≤ key b.

Lemma insert_sorted_Permutation x l : JS.insert_sorted key x l ≡ₚ x :: l.
Proof.
  elim: l => [//|y l IH] /=. case: Z.leb_spec => _; first done.
  by rewrite IH; apply Permutation_swap.
Qed.

Lemma sort_by_Permutation l : JS.sort_by key l ≡ₚ l.
Proof.
  elim: l => [//|x l IH] /=.
  by rewrite insert_sorted_Permutation -/(JS.sort_by key l) IH.
Qed.

Lemma insert_sorted_SSorted x l :
  StronglySorted le_key l → StronglySorted le_key (JS.insert_sorted key x l).
Proof.
  elim: l => [|y l IH] /=; first by repeat constructor.
  move=> /StronglySorted_cons [Hy Hl]. case: Z.leb_spec => Hxy.
  - apply StronglySorted_cons. split; last by apply StronglySorted_cons.
    constructor; first done.
    apply: Forall_impl; first exact: Hy. rewrite /le_key /=. lia.
  - apply StronglySorted_cons. split; last exact: IH.
    rewrite insert_sorted_Permutation. constructor; last done.
    rewrite /le_key. lia.
Qed.

Lemma sort_by_SSorted l : StronglySorted le_key (JS.sort_by key l).
Proof.
  elim: l => [|x l IH] /=; first by constructor.
  exact: insert_sorted_SSorted.
Qed.

(** The sort is stable, so its first element is the first of the
    elements with the least key. *)
Lemma head_sort_by l : head (JS.sort_by key l) = JS.first_min key l.
Proof.
  elim: l => [//|x l IH] /=. rewrite -IH -/(JS.sort_by key l).
  case: (JS.sort_by key l) => [//|y l'] /=. by case: Z.leb_spec.
Qed.

Lemma first_min_Some l m :
  JS.first_min key l = Some m → m ∈ l ∧ ∀ y, y ∈ l → key m ≤ key y.
Proof.
  elim: l m => [//|x l IH] m /=.
  case Hmin: (JS.first_min key l) => [y|].
  - have [Hy Hle] := IH _ Hmin. case: Z.leb_spec => Hxy [<-].
    + split; first by left. move=> z /elem_of_cons [->|/Hle]; lia.
    + split; first by right. move=> z /elem_of_cons [->|/Hle]; lia.
  - move=> [<-]. split; first by left.
    case: l Hmin {IH} => [_|z l /=].
    + move=> z /elem_of_cons [->|/elem_of_nil //]. lia.
    + case: (JS.first_min key l) => [y|] //. by case: (_ <=? _).
Qed.

Lemma first_min_is_Some l : l ≠ [] → is_Some (JS.first_min key l).
Proof.
  case: l => [//|x l] _ /=. case: (JS.first_min key l) => [y|]; last by eauto.
  case: Z.leb_spec; by eauto.
Qed.

(** An element added at the end is not the first minimum when an earlier
    element has a key that is not greater. *)
Lemma first_min_snoc l z :
  Exists (λ y, key y ≤ key z) l →
  JS.first_min key (l ++ [z]) = JS.first_min key l.
Proof.
  elim: l => [/Exists_nil //|x l IH] /Exists_cons Hex /=.
  case: (decide (Exists (λ y, key y ≤ key z) l)) => [/IH -> //|Hnone].
  have Hxz : key x ≤ key z by case: Hex.
  have Hgt : ∀ y, y ∈ l → key z < key y.
  { move=> y Hy. case: (Z.le_gt_cases (key y) (key z)) => ?; last lia.
    case: Hnone. apply Exists_exists. by exists y. }
  have [m Hm] : is_Some (JS.first_min key (l ++ [z])).
  { apply first_min_is_Some. by case: (l). }
  have [Hmin Hmle] := first_min_Some _ _ Hm.
  have Hxm : key x ≤ key m.
  { move: Hmin => /elem_of_app [/Hgt ?|/list_elem_of_singleton -> //]. lia. }
  rewrite Hm. case: Z.leb_spec => ?; last lia.
  case Hl: (JS.first_min key l) => [m'|//].
  have [/Hgt ? _] := first_min_Some _ _ Hl.
  case: Z.leb_spec => // ?. lia.
Qed.

(** The first minimum splits the list: the elements before it have a
    greater key, those after it a key that is not smaller. *)
Lemma first_min_split l m :
  JS.first_min key l = Some m →
  ∃ l1 l2, l = l1 ++ m :: l2 ∧
           (∀ y, y ∈ l1 → key m < key y) ∧
           (∀ y, y ∈ l2 → key m ≤ key y).
Proof.
  elim: l m => [//|x l IH] m /=.
  case Hmin: (JS.first_min key l) => [y|].
  - have [_ Hle] := first_min_Some _ _ Hmin.
    case: Z.leb_spec => Hxy [<-].
    + exists [], l. split_and!; [done|by move=> ? /elem_of_nil|].
      move=> z /Hle. lia.
    + have [l1 [l2 [-> [Hlt Hge]]]] := IH _ Hmin.
      exists (x :: l1), l2. split_and!; [done| |done].
      move=> z /elem_of_cons [->|/Hlt //]. lia.
  - move=> [<-]. exists [], l. split_and!; [done|by move=> ? /elem_of_nil|].
    case: l Hmin {IH} => [_ ? /elem_of_nil //|z l /=].
    case: (JS.first_min key l) => [y|] //. by case: (_ <=? _).
Qed.
End sort_by_facts.

Section ordered_map_facts.
Context {V : Type}.
Implicit Types (m : list (Z * V)) (k : Z) (v : V).

Lemma map_set_fresh k v m : k ∉ m.*1 → JS.map_set k v m = m ++ [(k, v)].
Proof.
  elim: m => [//|[k' v'] m IH] /= /not_elem_of_cons [Hne Hk].
  rewrite decide_False; first by congruence. by rewrite IH.
Qed.

Lemma map_set_keys k v m :
  (JS.map_set k v m).*1 = if decide (k ∈ m.*1) then m.*1 else m.*1 ++ [k].
Proof.
  elim: m => [//|[k' v'] m IH].
  rewrite [JS.map_set _ _ _]/= !fmap_cons [(_, _).1]/=.
  case: (decide (k' = k)) => [->|Hne].
  - by rewrite decide_True; first by left.
  - rewrite fmap_cons IH /=. case: (decide (k ∈ m.*1)) => Hk.
    + by rewrite decide_True; first by right.
    + rewrite decide_False //. move=> /elem_of_cons [?|//]. by subst.
Qed.

Lemma map_set_NoDup k v m : NoDup m.*1 → NoDup (JS.map_set k v m).*1.
Proof.
  move=> Hnd. rewrite map_set_keys. case_decide as Hk; first done.
  apply NoDup_app. split_and!; [done| |by apply NoDup_singleton].
  move=> k' Hk' /list_elem_of_singleton ?. by subst.
Qed.

Lemma map_set_length k v m :
  (length (JS.map_set k v m) ≤ S (length m))%nat.
Proof.
  rewrite -(length_fmap fst) map_set_keys.
  case_decide; rewrite ?length_app length_fmap /=; lia.
Qed.

Lemma map_delete_NoDup k m : NoDup m.*1 → NoDup (JS.map_delete k m).*1.
Proof.
  move=> Hnd. apply: sublist_NoDup; first exact: Hnd.
  apply fmap_sublist, sublist_filter.
Qed.

Lemma map_delete_absent k m : k ∉ m.*1 → JS.map_delete k m = m.
Proof.
  move=> Hk. apply: filter_all => kv Hkv Heq. apply: Hk.
  apply list_elem_of_fmap. by exists kv.
Qed.

Lemma map_delete_middle m1 kv m2 :
  NoDup (m1 ++ kv :: m2).*1 → JS.map_delete kv.1 (m1 ++ kv :: m2) = m1 ++ m2.
Proof.
  rewrite fmap_app fmap_cons => /NoDup_app [_ [Hdis /NoDup_cons [Hfresh _]]].
  rewrite /JS.map_delete filter_app filter_cons_False;
    first by move=> Hne; apply: Hne.
  f_equal; apply: filter_all => kv' Hin Heq.
  - apply: (Hdis kv'.1); first by apply list_elem_of_fmap; exists kv'.
    rewrite Heq. by left.
  - apply: Hfresh. rewrite -Heq. apply list_elem_of_fmap. by exists kv'.
Qed.

Lemma map_delete_length k m :
  NoDup m.*1 → k ∈ m.*1 → S (length (JS.map_delete k m)) = length m.
Proof.
  elim: m => [_ /elem_of_nil //|[k' v'] m IH].
  rewrite fmap_cons => /NoDup_cons [Hk' Hnd] /elem_of_cons Hin.
  rewrite /JS.map_delete. case: (decide (k' = k)) => [?|Hne].
  - subst k'. rewrite filter_cons_False; first by move=> Hk; apply: Hk.
    by rewrite -/(JS.map_delete k m) map_delete_absent.
  - rewrite filter_cons_True //= -/(JS.map_delete k m) IH //.
    case: Hin => [?|//]. by subst.
Qed.
End ordered_map_facts.

(** ** The screenshot cache *)

Section cache_facts.
Import Background.
Implicit Types (cache entries : Cache) (kv : Z * Entry) (tabId : Z).

Lemma NoDup_keys_inj cache kv kv' :
  NoDup cache.*1 → kv ∈ cache → kv' ∈ cache → kv.1 = kv'.1 → kv = kv'.
Proof.
  move=> Hnd /list_elem_of_lookup [i Hi] /list_elem_of_lookup [j Hj] Heq.
  have ? : i = j.
  { apply: (NoDup_lookup _ _ _ kv.1 Hnd);
      by rewrite list_lookup_fmap ?Hi ?Hj /= ?Heq. }
  subst j. congruence.
Qed.

Lemma elem_of_map_delete_keys cache tabId k :
  k ∈ (JS.map_delete tabId cache).*1 ↔ k ≠ tabId ∧ k ∈ cache.*1.
Proof.
  rewrite /JS.map_delete !list_elem_of_fmap. split.
  - move=> [kv [-> /list_elem_of_filter [Hne Hin]]]. split; first done.
    by exists kv.
  - move=> [Hne [kv [? Hin]]]. subst k. exists kv. split; first done.
    by apply list_elem_of_filter.
Qed.

Lemma pruneLoop_spec cache entries :
  NoDup cache.*1 → NoDup entries.*1 →
  (∀ k, k ∈ entries.*1 → k ∈ cache.*1) →
  pruneLoop cache entries =
    filter (λ kv, kv.1 ∉ (take (length cache - 25) entries).*1) cache ∧
  length (pruneLoop cache entries) =
    (length cache - (length cache - 25) `min` length entries)%nat.
Proof.
  elim: entries cache => [|[oldestId e] entries IH] cache Hc He Hsub.
  - rewrite take_nil /= Nat.min_0_r Nat.sub_0_r. split; last done.
    rewrite filter_all // => kv _. by apply not_elem_of_nil.
  - rewrite /= /MAX_SCREENSHOT_CACHE_ITEMS /JS.map_size /JS.len.
    case: Z.ltb_spec => Hlen; last first.
    { have -> : (length cache - 25 = 0)%nat by lia.
      rewrite /= Nat.sub_0_r. split; last done.
      rewrite filter_all // => kv _. by apply not_elem_of_nil. }
    move: He. rewrite fmap_cons => /NoDup_cons [/= Hfresh He].
    have Hin : oldestId ∈ cache.*1 by apply Hsub; left.
    have Hlen' := map_delete_length oldestId cache Hc Hin.
    have [|||-> ->] := IH (JS.map_delete oldestId cache).
    + exact: map_delete_NoDup.
    + done.
    + move=> k Hk. apply elem_of_map_delete_keys. split.
      * move=> ?. by subst.
      * apply Hsub. by right.
    + have -> : (length cache - 25 = S (length (JS.map_delete oldestId cache) - 25))%nat
        by lia.
      split; last by (rewrite /=; lia).
      rewrite firstn_cons fmap_cons /JS.map_delete list_filter_filter.
      apply list_filter_iff => kv /=. rewrite not_elem_of_cons. tauto.
Qed.

(** Pruning keeps the cache's order, brings its size down to the cap and
    no further, and removes only entries that are at least as old as
    every entry it keeps. *)
Lemma pruneScreenshotCache_spec cache :
  NoDup cache.*1 →
  let cache' := pruneScreenshotCache cache in
  cache' `sublist_of` cache ∧
  length cache' = (length cache `min` 25)%nat ∧
  ∀ kv kv', kv ∈ cache → kv ∉ cache' → kv' ∈ cache' →
            timestampOrZero kv ≤ timestampOrZero kv'.
Proof.
  move=> Hnd. rewrite /pruneScreenshotCache /MAX_SCREENSHOT_CACHE_ITEMS
    /JS.map_size /JS.len.
  case: Z.leb_spec => Hlen /=.
  { split_and!; [done|lia|done]. }
  set entries := JS.sort_by timestampOrZero cache.
  have Hperm : entries ≡ₚ cache by apply sort_by_Permutation.
  have [||Heq Hlen'] := pruneLoop_spec cache entries Hnd.
  { by rewrite Hperm. }
  { move=> k. by rewrite Hperm. }
  rewrite Hlen' Heq. split_and!.
  - apply sublist_filter.
  - rewrite Hperm. lia.
  - move=> kv kv' Hkv Hgone /list_elem_of_filter [Hkept Hkv'].
    have Hold : kv.1 ∈ (take (length cache - 25) entries).*1.
    { apply dec_stable => Hk. apply: Hgone. by apply list_elem_of_filter. }
    move: Hold => /list_elem_of_fmap [kv0 [Hk0 Hin0]].
    have ? : kv = kv0.
    { apply: (NoDup_keys_inj cache) => //. rewrite -Hperm.
      by eapply subseteq_take. }
    subst kv0.
    have Hin' : kv' ∈ drop (length cache - 25) entries.
    { have : kv' ∈ entries by rewrite Hperm.
      rewrite -{1}(take_drop (length cache - 25) entries).
      move=> /elem_of_app [Hin|//]. case: Hkept.
      apply list_elem_of_fmap. by exists kv'. }
    have Hsorted := sort_by_SSorted timestampOrZero cache.
    rewrite -/entries -(take_drop (length cache - 25) entries) in Hsorted.
    exact: (StronglySorted_app_1_elem_of _ _ _ _ _ Hsorted Hin0 Hin').
Qed.

Lemma pruneLoop_within_cap cache entries :
  (length cache ≤ 25)%nat → pruneLoop cache entries = cache.
Proof.
  case: entries => [//|[oldestId e] entries] Hlen /=.
  rewrite /MAX_SCREENSHOT_CACHE_ITEMS /JS.map_size /JS.len.
  case: Z.ltb_spec => //. lia.
Qed.

Lemma setScreenshot_inv cache tabId dataUrl url now :
  NoDup cache.*1 →
  NoDup (setScreenshot cache tabId dataUrl url now).*1 ∧
  (length (setScreenshot cache tabId dataUrl url now) ≤ 25)%nat.
Proof.
  move=> Hnd. rewrite /setScreenshot.
  set inserted := JS.map_set _ _ _.
  have Hins : NoDup inserted.*1 by apply map_set_NoDup.
  have [Hsub [Hlen _]] := pruneScreenshotCache_spec inserted Hins.
  split; last lia.
  apply: sublist_NoDup; first exact: Hins. by apply fmap_sublist.
Qed.

Lemma setScreenshots_inv cache puts :
  NoDup cache.*1 → (length cache ≤ 25)%nat →
  NoDup (setScreenshots cache puts).*1 ∧
  (length (setScreenshots cache puts) ≤ 25)%nat.
Proof.
  rewrite /setScreenshots.
  elim: puts cache => [//|[[[tabId dataUrl] url] now] puts IH] cache Hnd _ /=.
  have [? ?] := setScreenshot_inv cache tabId dataUrl url now Hnd.
  exact: IH.
Qed.

(** A put of a new id into a full cache evicts the first of the oldest
    entries of the cache, and nothing else. *)
Lemma setScreenshot_at_cap cache tabId dataUrl url now :
  NoDup cache.*1 → length cache = 25%nat → tabId ∉ cache.*1 →
  Exists (λ kv, timestampOrZero kv ≤ now) cache →
  ∃ victim,
    JS.first_min timestampOrZero cache = Some victim ∧
    setScreenshot cache tabId dataUrl url now =
      JS.map_delete victim.1 cache ++ [(tabId, mkEntry dataUrl (Some now) url)] ∧
    length (JS.map_delete victim.1 cache) = 24%nat.
Proof.
  move=> Hnd Hlen Hfresh Hold.
  have [victim Hvictim] : is_Some (JS.first_min timestampOrZero cache).
  { apply first_min_is_Some. by case: (cache) Hlen. }
  have [Hin Hmin] := first_min_Some _ _ _ Hvictim.
  have Hkey : victim.1 ∈ cache.*1 by apply list_elem_of_fmap; exists victim.
  have Hlen' := map_delete_length victim.1 cache Hnd Hkey.
  exists victim. split_and!; [done| |lia].
  rewrite /setScreenshot map_set_fresh //.
  set new := (tabId, _). set inserted := cache ++ [new].
  rewrite /pruneScreenshotCache /MAX_SCREENSHOT_CACHE_ITEMS /JS.map_size
    /JS.len.
  have Hlen26 : length inserted = 26%nat by rewrite length_app Hlen.
  case: Z.leb_spec => ?; first lia.
  have Hhead : head (JS.sort_by timestampOrZero inserted) = Some victim.
  { by rewrite head_sort_by first_min_snoc. }
  case: (JS.sort_by timestampOrZero inserted) Hhead => [//|? entries] [->].
  rewrite /= /MAX_SCREENSHOT_CACHE_ITEMS /JS.map_size /JS.len.
  case: Z.ltb_spec => ?; last lia. case: victim {Hvictim Hmin} Hin Hkey Hlen'
    => [oldestId e] /= Hin Hkey Hlen'.
  have Heq : JS.map_delete oldestId inserted =
             JS.map_delete oldestId cache ++ [new].
  { rewrite /JS.map_delete filter_app. f_equal.
    rewrite filter_cons_True //= => ?. by subst. }
  rewrite pruneLoop_within_cap //. rewrite Heq length_app /=. lia.
Qed.

(** A put of a new id into a full cache removes the first of the oldest
    of the 26 entries, and nothing else. *)
Lemma setScreenshot_new_at_cap cache tabId dataUrl url now :
  NoDup cache.*1 → length cache = 25%nat → tabId ∉ cache.*1 →
  let inserted := cache ++ [(tabId, mkEntry dataUrl (Some now) url)] in
  ∃ victim,
    JS.first_min timestampOrZero inserted = Some victim ∧
    setScreenshot cache tabId dataUrl url now =
      JS.map_delete victim.1 inserted ∧
    length (JS.map_delete victim.1 inserted) = 25%nat.
Proof.
  move=> Hnd Hlen Hfresh inserted.
  have Hins : NoDup inserted.*1.
  { rewrite /inserted -map_set_fresh //. exact: map_set_NoDup. }
  have Hlen26 : length inserted = 26%nat by rewrite length_app Hlen.
  have [victim Hvictim] : is_Some (JS.first_min timestampOrZero inserted).
  { apply first_min_is_Some. by case: (inserted) Hlen26. }
  have [Hin _] := first_min_Some _ _ _ Hvictim.
  have Hkey : victim.1 ∈ inserted.*1 by apply list_elem_of_fmap; exists victim.
  have Hlen' := map_delete_length victim.1 inserted Hins Hkey.
  exists victim. split_and!; [done| |lia].
  rewrite /setScreenshot map_set_fresh // -/inserted.
  rewrite /pruneScreenshotCache /MAX_SCREENSHOT_CACHE_ITEMS /JS.map_size
    /JS.len.
  case: Z.leb_spec => ?; first lia.
  have Hhead : head (JS.sort_by timestampOrZero inserted) = Some victim.
  { by rewrite head_sort_by. }
  case: (JS.sort_by timestampOrZero inserted) Hhead => [//|? entries] [->].
  rewrite /= /MAX_SCREENSHOT_CACHE_ITEMS /JS.map_size /JS.len.
  case: Z.ltb_spec => ?; last lia.
  case: victim {Hvictim Hin} Hkey Hlen' => [oldestId e] /= Hkey Hlen'.
  rewrite pruneLoop_within_cap //. lia.
Qed.

(** A put for an id that is cached replaces its entry where it is. *)
Lemma setScreenshot_cached cache tabId dataUrl url now :
  (length cache ≤ 25)%nat → tabId ∈ cache.*1 →
  setScreenshot cache tabId dataUrl url now =
    JS.map_set tabId (mkEntry dataUrl (Some now) url) cache ∧
  (setScreenshot cache tabId dataUrl url now).*1 = cache.*1.
Proof.
  move=> Hlen Hin.
  have Hkeys := map_set_keys tabId (mkEntry dataUrl (Some now) url) cache.
  rewrite decide_True // in Hkeys.
  have Hsame : length (JS.map_set tabId (mkEntry dataUrl (Some now) url) cache)
               = length cache.
  { by rewrite -(length_fmap fst) Hkeys length_fmap. }
  have -> : setScreenshot cache tabId dataUrl url now =
            JS.map_set tabId (mkEntry dataUrl (Some now) url) cache.
  { rewrite /setScreenshot /pruneScreenshotCache /MAX_SCREENSHOT_CACHE_ITEMS
      /JS.map_size /JS.len Hsame.
    case: Z.leb_spec => //. lia. }
  done.
Qed.

(** C3 (amended). The timestamp of an entry is read from the entry
    itself; an entry without one counts as stamped 0. For a cache with
    one entry per id and within the cap:
    (1) after any sequence of puts the cache holds at most 25 entries;
    (2) pruning a cache of any size keeps the order of the entries it
    keeps, leaves min(size, 25) entries, and every entry it removes has
    a timestamp not greater than that of any entry it keeps, so it
    removes the globally oldest entries and no more than needed;
    (3) a put into a cache of exactly 25 entries leaves 25 entries;
    for an id that is already cached it replaces that id's entry in
    place and removes nothing; for a new id it removes exactly one of
    the 26 entries (the 25 and the new one), the first in insertion
    order of those with the smallest timestamp, and this is one of the
    original 25 whenever the new timestamp is not smaller than all of
    theirs. *)
Theorem screenshot_cache_cap_and_eviction cache :
  let stamp := λ kv : Z * Entry, default 0 (entry_timestamp kv.2) in
  NoDup cache.*1 → (length cache ≤ 25)%nat →
  (∀ puts, (length (setScreenshots cache puts) ≤ 25)%nat) ∧
  (∀ c, NoDup c.*1 →
     pruneScreenshotCache c `sublist_of` c ∧
     length (pruneScreenshotCache c) = (length c `min` 25)%nat ∧
     ∀ kv kv', kv ∈ c → kv ∉ pruneScreenshotCache c →
               kv' ∈ pruneScreenshotCache c → stamp kv ≤ stamp kv') ∧
  (∀ tabId dataUrl url now,
     length cache = 25%nat →
     let new := (tabId, mkEntry dataUrl (Some now) url) in
     let cache' := setScreenshot cache tabId dataUrl url now in
     length cache' = 25%nat ∧
     (tabId ∈ cache.*1 →
        cache' = JS.map_set tabId new.2 cache ∧ cache'.*1 = cache.*1) ∧
     (tabId ∉ cache.*1 →
        ∃ victim before after,
          cache ++ [new] = before ++ victim :: after ∧
          (∀ kv, kv ∈ before → stamp victim < stamp kv) ∧
          (∀ kv, kv ∈ after → stamp victim ≤ stamp kv) ∧
          cache' = before ++ after ∧
          (Exists (λ kv, stamp kv ≤ now) cache →
             victim ∈ cache ∧
             cache' = JS.map_delete victim.1 cache ++ [new]))).
Proof.
  move=> stamp Hnd Hlen. split_and!.
  - move=> puts. by apply setScreenshots_inv.
  - move=> c Hc. exact: pruneScreenshotCache_spec.
  - move=> tabId dataUrl url now Hfull new cache'.
    have Hlen' : length cache' = 25%nat.
    { case: (decide (tabId ∈ cache.*1)) => Hin.
      - have [_ Hkeys] :=
          setScreenshot_cached cache tabId dataUrl url now Hlen Hin.
        by rewrite /cache' -(length_fmap fst) Hkeys length_fmap.
      - have [victim [_ [Heq Hl]]] :=
          setScreenshot_new_at_cap cache tabId dataUrl url now Hnd Hfull Hin.
        by rewrite /cache' Heq. }
    split_and!; first done.
    + move=> Hin. exact: setScreenshot_cached.
    + move=> Hfresh.
      have [victim [Hvictim [Heq _]]] :=
        setScreenshot_new_at_cap cache tabId dataUrl url now Hnd Hfull Hfresh.
      have [before [after [Hsplit [Hlt Hge]]]] := first_min_split _ _ _ Hvictim.
      have Hins : NoDup (cache ++ [new]).*1.
      { rewrite /new -map_set_fresh //. exact: map_set_NoDup. }
      exists victim, before, after. split_and!; try done.
      * rewrite /cache' Heq -/new Hsplit. apply map_delete_middle.
        by rewrite -Hsplit.
      * move=> Hold.
        have [victim' [Hvictim' [Heq' _]]] :=
          setScreenshot_at_cap cache tabId dataUrl url now Hnd Hfull Hfresh Hold.
        have ? : victim' = victim.
        { move: Hvictim. rewrite first_min_snoc // Hvictim'. by case. }
        subst victim'. have [Hin _] := first_min_Some _ _ _ Hvictim'.
        by split.
Qed.

Lemma screenshot_cache_cap_and_eviction_witness :
  let cache : Cache :=
    (λ i, (Z.of_nat i, mkEntry "img" (Some (100 - Z.of_nat i)) None))
      <$> seq 1 25 in
  let puts : list (Z * string * option string * Z) :=
    [(26, "a"%string, None, 200); (7, "b"%string, None, 201);
     (27, "c"%string, None, 202)] in
  (length (setScreenshots cache puts) ≤ 25)%nat ∧
  (setScreenshot cache 7 "new" None 200).*1 = cache.*1 ∧
  ∃ victim before after,
    cache ++ [(26, mkEntry "new" (Some 200) None)] =
      before ++ victim :: after ∧
    (∀ kv, kv ∈ before → default 0 (entry_timestamp victim.2) <
                         default 0 (entry_timestamp kv.2)) ∧
    (∀ kv, kv ∈ after → default 0 (entry_timestamp victim.2) ≤
                        default 0 (entry_timestamp kv.2)) ∧
    setScreenshot cache 26 "new" None 200 = before ++ after ∧
    victim ∈ cache.
Proof.
  move=> cache puts.
  have [Hcap [_ Hput]] :
    _ ∧ _ ∧ _ := screenshot_cache_cap_and_eviction cache
                   ltac:(rewrite /cache; compute_done)
                   ltac:(rewrite /cache; compute_done).
  split; first exact: Hcap.
  have [_ [Hcached _]] := Hput 7 "new"%string None 200 eq_refl.
  have [_ [_ Hnew]] := Hput 26 "new"%string None 200 eq_refl.
  split; first by apply Hcached; rewrite /cache; compute_done.
  have [|victim [before [after [Hsplit [Hlt [Hge [Heq Hold]]]]]]] := Hnew.
  { rewrite /cache. compute_done. }
  have [|Hin _] := Hold.
  { rewrite /cache. apply Exists_exists.
    exists (1, mkEntry "img" (Some 99) None). split; [by left|done]. }
  by exists victim, before, after.
Defined.

Example eviction_of_oldest :
  let cache : Cache :=
    (λ i, (Z.of_nat i, mkEntry "img" (Some (100 - Z.of_nat i)) None))
      <$> seq 1 25 in
  (setScreenshot cache 26 "new" None 200).*1 =
    (Z.of_nat <$> seq 1 24) ++ [26].
Proof. reflexivity. Qed.

(** A put stamped before every stored entry is itself the oldest of the
    26 entries and is the one removed. *)
Example put_stamped_before_all :
  let cache : Cache :=
    (λ i, (Z.of_nat i, mkEntry "img" (Some (100 - Z.of_nat i)) None))
      <$> seq 1 25 in
  (setScreenshot cache 26 "new" None 5).*1 = Z.of_nat <$> seq 1 25.
Proof. reflexivity. Qed.

(** The claim as worded fails: a put into a cache of exactly 25 entries
    for an id that is already cached overwrites in place, so no entry
    with the smallest timestamp among the 25 (indeed no id at all) is
    removed, and the cache holds 25 entries before and after. *)
Lemma put_of_cached_id_at_cap_removes_nothing :
  let cache : Cache :=
    (λ i, (Z.of_nat i, mkEntry "img" (Some (100 - Z.of_nat i)) None))
      <$> seq 1 25 in
  let cache' := setScreenshot cache 7 "new" None 200 in
  length cache = 25%nat ∧ length cache' = 25%nat ∧
  ¬ ∃ victim,
      victim ∈ cache ∧
      (∀ kv, kv ∈ cache → default 0 (entry_timestamp victim.2) ≤
                          default 0 (entry_timestamp kv.2)) ∧
      victim.1 ∉ cache'.*1.
Proof.
  move=> cache cache'. split_and!; [reflexivity..|].
  move=> [victim [Hin [_ Hgone]]]. apply: Hgone.
  have -> : cache'.*1 = cache.*1 by reflexivity.
  apply list_elem_of_fmap. by exists victim.
Qed.

(** *** Lookup *)

Lemma map_get_None {V} (m : list (Z * V)) k :
  k ∉ m.*1 → JS.map_get k m = None.
Proof.
  elim: m => [//|[k' v'] m IH]. rewrite fmap_cons => /not_elem_of_cons /= [? ?].
  rewrite decide_False; first by congruence. exact: IH.
Qed.

Lemma map_get_Some {V} (m : list (Z * V)) k v :
  NoDup m.*1 → (k, v) ∈ m → JS.map_get k m = Some v.
Proof.
  elim: m => [_ /elem_of_nil //|[k' v'] m IH].
  rewrite fmap_cons => /NoDup_cons /= [Hk' Hnd] /elem_of_cons [[-> ->]|Hin].
  - by rewrite decide_True.
  - rewrite decide_False; last exact: IH.
    move=> ?. subst k'. apply: Hk'. apply list_elem_of_fmap. by exists (k, v).
Qed.

Lemma scanByUrl_spec cache u :
  Forall (λ kv, JS.truthy (entry_dataUrl kv.2)) cache →
  scanByUrl cache u =
  (λ kv, entry_dataUrl kv.2) <$>
    head (filter (λ kv, entry_url kv.2 = Some u) cache).
Proof.
  elim: cache => [//|[k e] cache IH] /Forall_cons /= [Himg Hall].
  rewrite filter_cons /=. case: (decide (entry_url e = Some u)) => Hu.
  - rewrite bool_decide_true //=. by case: (JS.truthy _) Himg.
  - rewrite bool_decide_false //=. exact: IH.
Qed.

(** C4. In a cache with one entry per id whose entries all hold an
    image: (1) when an entry is keyed by the tab id, its image is the
    result, whatever the URL and whatever the other entries store;
    (2) when no entry is keyed by the tab id and a (non-empty) URL is
    given, the result is the image of the first entry, in insertion
    order, whose stored URL equals it, and there is no image when no
    entry stores that URL; (3) when no entry is keyed by the tab id and no
    URL is given, there is no image. *)
Theorem getScreenshot_lookup cache tabId url :
  NoDup cache.*1 →
  Forall (λ kv, JS.truthy (entry_dataUrl kv.2)) cache →
  (∀ entry, (tabId, entry) ∈ cache →
     getScreenshot cache tabId url = Some (entry_dataUrl entry)) ∧
  (tabId ∉ cache.*1 →
     ∀ u, url = Some u → u ≠ EmptyString →
       getScreenshot cache tabId url =
         (λ kv, entry_dataUrl kv.2) <$>
           head (filter (λ kv, entry_url kv.2 = Some u) cache) ∧
       ((∀ kv, kv ∈ cache → entry_url kv.2 ≠ Some u) →
          getScreenshot cache tabId url = None)) ∧
  (tabId ∉ cache.*1 → url = None ∨ url = Some EmptyString →
     getScreenshot cache tabId url = None).
Proof.
  move=> Hnd Himg. split_and!.
  - move=> entry Hin. rewrite /getScreenshot (map_get_Some _ _ _ Hnd Hin).
    move: Himg => /Forall_forall /(_ _ Hin) /=.
    by case: (JS.truthy _).
  - move=> Hno u -> Hu. rewrite /getScreenshot map_get_None //.
    have -> : JS.truthy_opt (Some u) = true by case: (u) Hu.
    have -> : JS.or_empty (Some u) = u by case: (u) Hu.
    rewrite scanByUrl_spec //. split; first done.
    move=> Hnone. by rewrite filter_none.
  - move=> Hno Hurl. rewrite /getScreenshot map_get_None //.
    by case: Hurl => ->.
Qed.

Lemma getScreenshot_lookup_witness :
  let cache : Cache :=
    [(1, mkEntry "imgA" (Some 10) (Some "https://a.example/"));
     (2, mkEntry "imgB" (Some 20) (Some "https://a.example/"))] in
  let tabId := 2 in
  let url := Some "https://a.example/"%string in
  (∀ entry, (tabId, entry) ∈ cache →
     getScreenshot cache tabId url = Some (entry_dataUrl entry)) ∧
  (tabId ∉ cache.*1 →
     ∀ u, url = Some u → u ≠ EmptyString →
       getScreenshot cache tabId url =
         (λ kv, entry_dataUrl kv.2) <$>
           head (filter (λ kv, entry_url kv.2 = Some u) cache) ∧
       ((∀ kv, kv ∈ cache → entry_url kv.2 ≠ Some u) →
          getScreenshot cache tabId url = None)) ∧
  (tabId ∉ cache.*1 → url = None ∨ url = Some EmptyString →
     getScreenshot cache tabId url = None).
Proof.
  move=> cache tabId url.
  apply (getScreenshot_lookup cache tabId url); rewrite /cache; compute_done.
Defined.

(** The entry keyed by the tab id wins over an earlier entry that stores
    the same URL; the URL is used for an id that is not cached. *)
Example getScreenshot_by_id_first :
  let cache : Cache :=
    [(1, mkEntry "imgA" (Some 10) (Some "https://a.example/"));
     (2, mkEntry "imgB" (Some 20) (Some "https://a.example/"))] in
  getScreenshot cache 2 (Some "https://a.example/"%string) = Some "imgB"%string ∧
  getScreenshot cache 7 (Some "https://a.example/"%string) = Some "imgA"%string ∧
  getScreenshot cache 7 (Some "https://b.example/"%string) = None ∧
  getScreenshot cache 7 None = None.
Proof. done. Qed.

(** An empty URL counts as no URL: the scan is skipped. *)
Example getScreenshot_empty_url :
  getScreenshot [(1, mkEntry "imgA" (Some 10) (Some EmptyString))] 7
    (Some EmptyString) = None.
Proof. reflexivity. Qed.
End cache_facts.

(** ** The content script *)

Section string_facts.
Implicit Types (s q : string).

Lemma prefix_spec q s :
  String.prefix q s = true ↔ ∃ post, s = String.append q post.
Proof.
  elim: q s => [|c q IH] [|d s] /=.
  - split; last done. by exists EmptyString.
  - split; last done. by exists (String d s).
  - split; first done. by move=> [post].
  - case: (Ascii.ascii_dec c d) => [->|Hne].
    + rewrite IH. split.
      * move=> [post ->]. by exists post.
      * move=> [post [->]]. by exists post.
    + split; first done. move=> [post [? _]]. by subst.
Qed.

Lemma includes_spec s q : JS.includes s q = true ↔ JS.contains s q.
Proof.
  rewrite /JS.contains. elim: s => [|c s IH].
  - change (JS.includes EmptyString q) with (String.prefix q EmptyString || false).
    rewrite orb_false_r prefix_spec. split.
    + move=> [post ->]. by exists EmptyString, post.
    + move=> [[|d pre] [post Heq]]; last done. by exists post.
  - change (JS.includes (String c s) q)
      with (String.prefix q (String c s) || JS.includes s q).
    rewrite orb_true_iff prefix_spec IH. split.
    + move=> [[post ->]|[pre [post ->]]].
      * by exists EmptyString, post.
      * by exists (String c pre), post.
    + move=> [[|d pre] [post Heq]].
      * left. by exists post.
      * right. case: Heq => _ ->. by exists pre, post.
Qed.

Lemma or_empty_default (s : option string) :
  JS.or_empty s = default EmptyString s.
Proof. by case: s => [[|c s]|]. Qed.
End string_facts.

Section filter_facts.
Context `{HostStrings}.
Import Content.
Implicit Types (st : State) (tab : Tab).

Lemma matchesQuery_spec query tab :
  matchesQuery query tab = true ↔
  JS.contains (toLowerCase (default EmptyString (tab_title tab))) query ∨
  JS.contains (toLowerCase (default EmptyString (tab_url tab))) query.
Proof.
  by rewrite /matchesQuery orb_true_iff !includes_spec !or_empty_default.
Qed.

Lemma getFilteredTabs_sublist st :
  getFilteredTabs st `sublist_of` currentTabs st.
Proof.
  rewrite /getFilteredTabs. case: (negb _); first done. apply sublist_filter.
Qed.

Lemma getFilteredTabs_length st :
  (length (getFilteredTabs st) ≤ length (currentTabs st))%nat.
Proof. apply sublist_length, getFilteredTabs_sublist. Qed.

(** C9. With an empty query the candidates are the whole tab list. With
    a non-empty query they are the tabs, in their original order, for
    which the lower-cased title or the lower-cased URL contains the
    lower-cased query, a missing title or URL counting as the empty
    string: the list is the tab list filtered by a test that holds
    exactly for those tabs. *)
Theorem getFilteredTabs_spec st :
  (searchQuery st = EmptyString → getFilteredTabs st = currentTabs st) ∧
  (searchQuery st ≠ EmptyString →
     ∃ keep : Tab → bool,
       getFilteredTabs st = filter (λ tab, keep tab) (currentTabs st) ∧
       (∀ tab, keep tab = true ↔
          JS.contains (toLowerCase (default EmptyString (tab_title tab)))
            (toLowerCase (searchQuery st)) ∨
          JS.contains (toLowerCase (default EmptyString (tab_url tab)))
            (toLowerCase (searchQuery st))) ∧
       getFilteredTabs st `sublist_of` currentTabs st ∧
       (∀ tab, tab ∈ getFilteredTabs st ↔
          tab ∈ currentTabs st ∧
          (JS.contains (toLowerCase (default EmptyString (tab_title tab)))
             (toLowerCase (searchQuery st)) ∨
           JS.contains (toLowerCase (default EmptyString (tab_url tab)))
             (toLowerCase (searchQuery st))))).
Proof.
  split; first by rewrite /getFilteredTabs => ->.
  move=> Hq. exists (matchesQuery (toLowerCase (searchQuery st))).
  have Heq : getFilteredTabs st =
    filter (λ tab, matchesQuery (toLowerCase (searchQuery st)) tab)
      (currentTabs st).
  { rewrite /getFilteredTabs. by case: (searchQuery st) Hq. }
  split_and!.
  - done.
  - move=> tab. exact: matchesQuery_spec.
  - exact: getFilteredTabs_sublist.
  - move=> tab. rewrite Heq list_elem_of_filter -matchesQuery_spec.
    rewrite Is_true_true. tauto.
Qed.
End filter_facts.

Lemma getFilteredTabs_spec_witness :
  let st :=
    Content.mkState true true
      [mkTab 1 (Some "https://github.com/") (Some "GitHub") None;
       mkTab 2 None (Some "Twitter") None;
       mkTab 3 (Some "https://gitlab.com/") None None]
      (Some 1) 0 "GIT" false false false false Content.defaultSettings [] in
  ∃ keep : Tab → bool,
    @Content.getFilteredTabs ascii_strings st =
      filter (λ tab, keep tab) (Content.currentTabs st) ∧
    (∀ tab, keep tab = true ↔
       JS.contains (ascii_toLowerCase (default EmptyString (tab_title tab)))
         (ascii_toLowerCase (Content.searchQuery st)) ∨
       JS.contains (ascii_toLowerCase (default EmptyString (tab_url tab)))
         (ascii_toLowerCase (Content.searchQuery st))) ∧
    @Content.getFilteredTabs ascii_strings st
      `sublist_of` Content.currentTabs st ∧
    (∀ tab, tab ∈ @Content.getFilteredTabs ascii_strings st ↔
       tab ∈ Content.currentTabs st ∧
       (JS.contains (ascii_toLowerCase (default EmptyString (tab_title tab)))
          (ascii_toLowerCase (Content.searchQuery st)) ∨
        JS.contains (ascii_toLowerCase (default EmptyString (tab_url tab)))
          (ascii_toLowerCase (Content.searchQuery st)))).
Proof.
  move=> st. by apply (@getFilteredTabs_spec ascii_strings st).
Defined.

(** The specification's scenario: the query "git" over tabs titled GitHub,
    Twitter and GitLab keeps GitHub and GitLab, in that order. *)
Example getFilteredTabs_git :
  let st :=
    Content.mkState true true
      [mkTab 1 None (Some "GitHub") None; mkTab 2 None (Some "Twitter") None;
       mkTab 3 None (Some "GitLab") None]
      (Some 1) 0 "git" false false false false Content.defaultSettings [] in
  tab_title <$> @Content.getFilteredTabs ascii_strings st =
    [Some "GitHub"; Some "GitLab"]%string.
Proof. reflexivity. Qed.

(** ** The modifier flags *)

Section modifier_facts.
Context `{HostStrings}.
Import Content.
Implicit Types (st : State) (m : Modifier) (key : string) (e : Event).

Lemma pressed_set_selectedIndex m v st :
  pressed m (set_selectedIndex v st) = pressed m st.
Proof. by case: m. Qed.

Lemma pressed_set_currentTabs m v st :
  pressed m (set_currentTabs v st) = pressed m st.
Proof. by case: m. Qed.

Lemma pressed_sendMessage m r st :
  pressed m (sendMessage r st) = pressed m st.
Proof. by case: m. Qed.

Lemma pressed_renderTabs m st : pressed m (renderTabs st) = pressed m st.
Proof.
  rewrite /renderTabs. by repeat case_match; rewrite ?pressed_set_selectedIndex.
Qed.

Lemma visible_renderTabs st :
  switcherVisible (renderTabs st) = switcherVisible st.
Proof. rewrite /renderTabs. by repeat case_match. Qed.

Lemma pressed_closeSelectedTab m st :
  pressed m (closeSelectedTab st) = pressed m st.
Proof. rewrite /closeSelectedTab. by repeat case_match. Qed.

Lemma visible_trackModifiers key v st :
  switcherVisible (trackModifiers key v st) = switcherVisible st.
Proof. rewrite /trackModifiers. by repeat case_match. Qed.

Lemma pressed_trackModifiers_true m key st :
  pressed m st = true → pressed m (trackModifiers key true st) = true.
Proof.
  rewrite /trackModifiers. by repeat case_match; case: m => //=.
Qed.

Lemma pressed_trackModifiers_false m key st :
  key ≠ key_of m →
  pressed m (trackModifiers key false st) = pressed m st.
Proof.
  rewrite /trackModifiers /key_is => Hne.
  repeat case_bool_decide; subst; by case: m Hne.
Qed.

Lemma trackModifiers_other key v st :
  isModifierKey key = false → trackModifiers key v st = st.
Proof.
  rewrite /isModifierKey /trackModifiers /key_is.
  by repeat case_bool_decide.
Qed.

Lemma pressed_resetModifiers m st : pressed m (resetModifiers st) = false.
Proof. by case: m. Qed.

(** [hideSwitcher] either does nothing or tears the switcher down. *)
Lemma hideSwitcher_cases st :
  hideSwitcher st = st ∨
  (switcherVisible st = true ∧ switcherVisible (hideSwitcher st) = false).
Proof. rewrite /hideSwitcher. case: (switcherVisible st); by [right|left]. Qed.

Lemma hideSwitcher_hidden st : switcherVisible (hideSwitcher st) = false.
Proof. rewrite /hideSwitcher. by case Hv: (switcherVisible st). Qed.

Lemma pressed_hideSwitcher m st :
  pressed m st = true → pressed m (hideSwitcher st) = false →
  switcherVisible st = true ∧ switcherVisible (hideSwitcher st) = false.
Proof.
  case: (hideSwitcher_cases st) => [->|//]. by move=> ->.
Qed.

Lemma pressed_handleGlobalKeydown m key st :
  pressed m st = true → pressed m (handleGlobalKeydown key st) = false →
  switcherVisible st = true ∧
  switcherVisible (handleGlobalKeydown key st) = false.
Proof.
  move=> Hm. rewrite /handleGlobalKeydown.
  have := pressed_trackModifiers_true m key st Hm.
  have := visible_trackModifiers key true st.
  move: (trackModifiers key true st) => st1 Hv Ht.
  case Hvis: (switcherVisible st1) => /=; last by rewrite Ht.
  case: (key_is key "Escape").
  { move=> Hp. rewrite -Hv. exact: pressed_hideSwitcher. }
  repeat case_match;
    by rewrite ?pressed_closeSelectedTab ?pressed_renderTabs
         ?pressed_set_selectedIndex ?Ht.
Qed.

Lemma pressed_handleGlobalKeyup m key st :
  pressed m (handleGlobalKeyup key st) =
  pressed m (trackModifiers key false st).
Proof. rewrite /handleGlobalKeyup /switchToTab. by repeat case_match. Qed.

Lemma pressed_onToggleSwitcher m request innerWidth st :
  pressed m (onToggleSwitcher request innerWidth st) = pressed m st.
Proof.
  rewrite /onToggleSwitcher.
  by repeat case_match; rewrite ?pressed_renderTabs.
Qed.

Lemma pressed_showSwitcher_resume m stored st :
  pressed m (showSwitcher_resume stored st) = pressed m st.
Proof.
  rewrite /showSwitcher_resume pressed_renderTabs /loadSettings.
  by case: stored.
Qed.

Lemma pressed_onCloseTabResponse m tabId response st :
  pressed m st = true →
  pressed m (onCloseTabResponse tabId response st) = false →
  switcherVisible st = true ∧
  switcherVisible (onCloseTabResponse tabId response st) = false.
Proof.
  rewrite /onCloseTabResponse. case: response => [_|]; last by move=> ->.
  set st0 := set_currentTabs _ st.
  set st1 := (if _ <=? _ then _ else _).
  have Hp : pressed m st1 = pressed m st.
  { rewrite /st1. case: (_ <=? _);
      by rewrite ?pressed_set_selectedIndex pressed_set_currentTabs. }
  have Hv : switcherVisible st1 = switcherVisible st.
  { rewrite /st1. by case: (_ <=? _). }
  move=> Hm. rewrite -Hp in Hm. rewrite -Hv. case: (_ =? 0).
  - exact: pressed_hideSwitcher.
  - by rewrite pressed_renderTabs Hm.
Qed.

(** C7. (1) After any sequence of events, a window blur leaves all four
    modifier flags false. (2) If an event clears a flag that was set,
    the event is the blur, the key-up of that modifier, or one that
    tears the switcher down (it was visible before and is hidden
    after). *)
Theorem modifier_flags_blur :
  (∀ st events m, pressed m (step (run st events) Blur) = false) ∧
  (∀ st e m,
     pressed m st = true → pressed m (step st e) = false →
     e = Blur ∨ e = KeyUp (key_of m) ∨
     (switcherVisible st = true ∧ switcherVisible (step st e) = false)).
Proof.
  split; first by move=> st events m; apply pressed_resetModifiers.
  move=> st [request innerWidth|stored|key|key| |index| |tabId response] m Hm.
  - by rewrite /= pressed_onToggleSwitcher Hm.
  - by rewrite /= pressed_showSwitcher_resume Hm.
  - move=> /= Hp. right; right.
    rewrite -(visible_trackModifiers key true st).
    apply: pressed_handleGlobalKeydown Hp.
    exact: pressed_trackModifiers_true.
  - rewrite /= pressed_handleGlobalKeyup.
    case: (decide (key = key_of m)) => [->|Hne]; first by right; left.
    by rewrite !pressed_trackModifiers_false // Hm.
  - by left.
  - by rewrite /= /onMouseEnter pressed_renderTabs pressed_set_selectedIndex Hm.
  - move=> /= Hp. right; right. exact: pressed_hideSwitcher Hp.
  - move=> /= Hp. right; right. exact: pressed_onCloseTabResponse Hp.
Qed.
End modifier_facts.

Lemma modifier_flags_blur_witness :
  let st :=
    Content.mkState true true [mkTab 1 None None None] (Some 1) 0 EmptyString
      true false true false Content.defaultSettings [] in
  let e := Content.KeyUp "Control" in
  e = Content.Blur ∨ e = Content.KeyUp (Content.key_of Content.Control) ∨
  (Content.switcherVisible st = true ∧
   Content.switcherVisible (@Content.step ascii_strings st e) = false).
Proof.
  move=> st e.
  apply (proj2 (@modifier_flags_blur ascii_strings) st e Content.Control);
    reflexivity.
Defined.

(** ** Committing the selection on key release *)

Section commit_facts.
Context `{HostStrings}.
Import Content.
Implicit Types (st : State) (key : string) (tab : Tab).

Lemma getFilteredTabs_ext st st' :
  currentTabs st = currentTabs st' → searchQuery st = searchQuery st' →
  getFilteredTabs st = getFilteredTabs st'.
Proof. rewrite /getFilteredTabs. by move=> -> ->. Qed.

Lemma trackModifiers_fields key v st :
  let st' := trackModifiers key v st in
  switcherVisible st' = switcherVisible st ∧
  shadowRoot st' = shadowRoot st ∧
  currentTabs st' = currentTabs st ∧
  currentTabId st' = currentTabId st ∧
  selectedIndex st' = selectedIndex st ∧
  searchQuery st' = searchQuery st ∧
  currentSettings st' = currentSettings st ∧
  sent st' = sent st.
Proof. rewrite /trackModifiers. by repeat case_match. Qed.

(** C6. On a key-up while the switcher is visible: if the key is one of
    the four modifiers and, once the release is recorded, no modifier flag
    is set and the filtered list has a tab at the selected index, exactly
    one message is sent, the [switchToTab] request for that tab's id, and
    when the response to it arrives the switcher is torn down; if a
    modifier flag is still set, or the key is not a modifier, nothing is
    sent. *)
Theorem keyup_commit st key :
  switcherVisible st = true →
  let st' := step st (KeyUp key) in
  (isModifierKey key = true → noModifierHeld st' = true →
   ∀ tab, JS.at_index (getFilteredTabs st) (selectedIndex st) = Some tab →
     sent st' = sent st ++ [switchToTabRequest (tab_id tab)] ∧
     let st'' := step st' SwitchToTabResponse in
     switcherVisible st'' = false ∧ shadowRoot st'' = false ∧
     sent st'' = sent st' ++ [switcherHidden]) ∧
  (noModifierHeld st' = false → sent st' = sent st) ∧
  (isModifierKey key = false → sent st' = sent st).
Proof.
  move=> Hvis /=. rewrite /handleGlobalKeyup.
  have := trackModifiers_fields key false st.
  move: (trackModifiers key false st) => st1 /= [Hv1 [_ [Ht1 [_ [Hi1 [Hq1 [_ Hs1]]]]]]].
  have := trackModifiers_fields key false st1.
  move: (trackModifiers key false st1) => st2 /= [Hv2 [_ [Ht2 [_ [Hi2 [Hq2 [_ Hs2]]]]]]].
  rewrite Hv2 Hv1 Hvis /=.
  have -> : getFilteredTabs st2 = getFilteredTabs st.
  { apply getFilteredTabs_ext; congruence. }
  rewrite Hi2 Hi1.
  case Hmod: (isModifierKey key); last first.
  { split_and!; [done|by rewrite Hs2 Hs1..]. }
  case Hheld: (noModifierHeld st2).
  - split_and!; [|by case: (JS.at_index _ _) => [tab|];
                    rewrite /switchToTab /noModifierHeld /= -/(noModifierHeld st2) Hheld
                 |done].
    move=> _ _ tab ->.
    rewrite /switchToTab /onSwitchToTabResponse /hideSwitcher /= Hv2 Hv1 Hvis /=.
    by rewrite Hs2 Hs1.
  - split_and!; [by rewrite Hheld|by rewrite Hs2 Hs1|done].
Qed.
End commit_facts.

Lemma keyup_commit_witness :
  let st :=
    Content.mkState true true
      [mkTab 1 None (Some "A") None; mkTab 2 None (Some "B") None;
       mkTab 3 None (Some "C") None]
      (Some 1) 2 EmptyString true false false false Content.defaultSettings
      [Content.switcherShown] in
  let st' := @Content.step ascii_strings st (Content.KeyUp "Control") in
  (Content.isModifierKey "Control" = true →
   Content.noModifierHeld st' = true →
   ∀ tab,
     JS.at_index (@Content.getFilteredTabs ascii_strings st)
       (Content.selectedIndex st) = Some tab →
     Content.sent st' =
       Content.sent st ++ [Content.switchToTabRequest (tab_id tab)] ∧
     let st'' := @Content.step ascii_strings st' Content.SwitchToTabResponse in
     Content.switcherVisible st'' = false ∧ Content.shadowRoot st'' = false ∧
     Content.sent st'' = Content.sent st' ++ [Content.switcherHidden]) ∧
  (Content.noModifierHeld st' = false → Content.sent st' = Content.sent st) ∧
  (Content.isModifierKey "Control" = false →
   Content.sent st' = Content.sent st).
Proof.
  move=> st. apply (@keyup_commit ascii_strings st "Control"); reflexivity.
Defined.

(** The specification's scenario: tabs A (current), B, C; a forward toggle
    selects B, a second one C, and releasing the modifier requests the
    switch to C. *)
Example scenario_toggle_toggle_release :
  let request :=
    mkToggleRequest
      (Some [mkTab 1 None (Some "A") None; mkTab 2 None (Some "B") None;
             mkTab 3 None (Some "C") None]) 1 (Some Forward) in
  let shown :=
    @Content.run ascii_strings Content.initial
      [Content.KeyDown "Control"; Content.ToggleSwitcher request 1920;
       Content.SettingsLoaded None] in
  let cycled := @Content.step ascii_strings shown (Content.ToggleSwitcher request 1920) in
  let released := @Content.step ascii_strings cycled (Content.KeyUp "Control") in
  Content.selectedIndex shown = 1 ∧ Content.switcherVisible shown = true ∧
  Content.selectedIndex cycled = 2 ∧
  Content.sent released =
    [Content.switcherShown; Content.switchToTabRequest 3] ∧
  Content.switcherVisible
    (@Content.step ascii_strings released Content.SwitchToTabResponse) = false.
Proof. done. Qed.

(** ** Toggling: the initial selection and cycling *)

Section toggle_facts.
Context `{HostStrings}.
Import Content.
Implicit Types (st : State) (request : ToggleRequest) (tabs : list Tab).



Lemma getFilteredTabs_set_selectedIndex v st :
  getFilteredTabs (set_selectedIndex v st) = getFilteredTabs st.
Proof. done. Qed.

Lemma renderTabs_fields st :
  let st' := renderTabs st in
  switcherVisible st' = switcherVisible st ∧
  shadowRoot st' = shadowRoot st ∧
  currentTabs st' = currentTabs st ∧
  currentTabId st' = currentTabId st ∧
  searchQuery st' = searchQuery st ∧
  currentSettings st' = currentSettings st ∧
  sent st' = sent st ∧
  getFilteredTabs st' = getFilteredTabs st.
Proof. rewrite /renderTabs. by repeat case_match. Qed.

(** What [renderTabs] does to the selected index. *)
Lemma renderTabs_selectedIndex st :
  selectedIndex (renderTabs st) =
  if shadowRoot st
  then Z.max 0 (Z.min (selectedIndex st) (JS.len (getFilteredTabs st) - 1))
  else selectedIndex st.
Proof.
  rewrite /renderTabs. case: (shadowRoot st) => //=.
  case: Z.leb_spec => ? /=; case: Z.ltb_spec => ? /=; lia.
Qed.

Lemma renderTabs_in_range st :
  0 ≤ selectedIndex st < JS.len (getFilteredTabs st) →
  selectedIndex (renderTabs st) = selectedIndex st.
Proof. rewrite renderTabs_selectedIndex. case: (shadowRoot st) => //. lia. Qed.

Lemma showSwitcher_resume_fields stored st :
  let st' := showSwitcher_resume stored st in
  switcherVisible st' = true ∧
  shadowRoot st' = true ∧
  currentTabs st' = currentTabs st ∧
  searchQuery st' = EmptyString ∧
  sent st' = sent st ++ [switcherShown] ∧
  selectedIndex st' =
    Z.max 0 (Z.min (selectedIndex st) (JS.len (currentTabs st) - 1)).
Proof.
  rewrite /showSwitcher_resume /=.
  set shown := sendMessage switcherShown _.
  have [-> [-> [-> [_ [-> [_ [-> _]]]]]]] := renderTabs_fields shown.
  rewrite renderTabs_selectedIndex /shown {shown} /loadSettings.
  by case: stored.
Qed.

Lemma onToggleSwitcher_hidden st request innerWidth :
  switcherVisible st = false →
  let st' := onToggleSwitcher request innerWidth st in
  let n := JS.len (currentTabs st') in
  currentTabs st' =
    limitTabs (default [] (req_tabs request))
      (getMaxTabsForWidth (currentSettings st) innerWidth) ∧
  selectedIndex st' =
    match default Forward (req_direction request) with
    | Forward => if 1 <? n then 1 else 0
    | Backward => if 1 <? n then n - 1 else 0
    end.
Proof.
  move=> Hvis. rewrite /onToggleSwitcher /= Hvis.
  by case: (default Forward _).
Qed.

Lemma onToggleSwitcher_visible st request innerWidth :
  switcherVisible st = true →
  let st' := onToggleSwitcher request innerWidth st in
  let m := JS.len (getFilteredTabs st') in
  currentTabs st' =
    limitTabs (default [] (req_tabs request))
      (getMaxTabsForWidth (currentSettings st) innerWidth) ∧
  (0 ≤ selectedIndex st → 0 < m →
   selectedIndex st' =
     match default Forward (req_direction request) with
     | Forward => (selectedIndex st + 1) `mod` m
     | Backward => (selectedIndex st - 1) `mod` m
     end).
Proof.
  move=> Hvis. rewrite /onToggleSwitcher /= Hvis.
  set tabs := limitTabs _ _.
  set st0 := set_currentTabs tabs _.
  set m := JS.len (getFilteredTabs st0).
  case: Z.ltb_spec => Hm /=; last first.
  { split; first done. rewrite -/m. lia. }
  set moved := match default Forward (req_direction request) with
               | Forward => _ | Backward => _ end.
  have Hf : getFilteredTabs moved = getFilteredTabs st0.
  { rewrite /moved. by case: (default _ _). }
  have Ht : currentTabs moved = tabs.
  { rewrite /moved. by case: (default _ _). }
  have [_ [_ [-> [_ [_ [_ [_ ->]]]]]]] := renderTabs_fields moved.
  rewrite Hf -/m. split; first done. move=> Hsel _.
  have Hmoved : selectedIndex moved =
    match default Forward (req_direction request) with
    | Forward => (selectedIndex st + 1) `mod` m
    | Backward => (selectedIndex st - 1) `mod` m
    end.
  { rewrite /moved. case: (default _ _) => /=; rewrite /JS.rem -/m.
    - rewrite Z.rem_mod_nonneg //; lia.
    - rewrite Z.rem_mod_nonneg; [lia..|].
      have -> : selectedIndex st - 1 + m = selectedIndex st - 1 + 1 * m by lia.
      rewrite Z.mod_add //. lia. }
  rewrite renderTabs_in_range // Hf -/m Hmoved.
  case: (default _ _); apply Z.mod_pos_bound; lia.
Qed.

(** C5. A [toggleSwitcher] request replaces the tab list by the
    request's list cut to the capacity. With the switcher hidden, the
    selected index becomes 1 for "forward" and the last index for
    "backward" when the cut list has more than one tab, and 0 otherwise;
    the switcher then shows with that selection. With the switcher
    visible and a non-empty filtered list of [m] tabs, the selected
    index becomes the old one plus 1 ("forward") or minus 1 ("backward")
    modulo [m], wrapping from the last index to 0 and from 0 to the last
    index. *)
Theorem toggleSwitcher_selection st request innerWidth :
  let st' := step st (ToggleSwitcher request innerWidth) in
  let direction := default Forward (req_direction request) in
  let n := JS.len (currentTabs st') in
  let m := JS.len (getFilteredTabs st') in
  currentTabs st' =
    limitTabs (default [] (req_tabs request))
      (getMaxTabsForWidth (currentSettings st) innerWidth) ∧
  (switcherVisible st = false →
     (direction = Forward → 1 < n → selectedIndex st' = 1) ∧
     (direction = Backward → 1 < n → selectedIndex st' = n - 1) ∧
     (n ≤ 1 → selectedIndex st' = 0) ∧
     (∀ stored,
        let st'' := step st' (SettingsLoaded stored) in
        switcherVisible st'' = true ∧
        selectedIndex st'' = selectedIndex st' ∧
        currentTabs st'' = currentTabs st')) ∧
  (switcherVisible st = true → 0 ≤ selectedIndex st → 0 < m →
     (direction = Forward →
        selectedIndex st' = (selectedIndex st + 1) `mod` m) ∧
     (direction = Backward →
        selectedIndex st' = (selectedIndex st - 1) `mod` m) ∧
     (direction = Forward → selectedIndex st = m - 1 →
        selectedIndex st' = 0) ∧
     (direction = Backward → selectedIndex st = 0 →
        selectedIndex st' = m - 1) ∧
     0 ≤ selectedIndex st' < m).
Proof.
  move=> st' direction n m. rewrite /st' /=. split.
  { case Hvis: (switcherVisible st).
    - by have [-> _] := onToggleSwitcher_visible st request innerWidth Hvis.
    - by have [-> _] := onToggleSwitcher_hidden st request innerWidth Hvis. }
  split.
  - move=> Hvis.
    have [Ht Hsel] := onToggleSwitcher_hidden st request innerWidth Hvis.
    rewrite -/(step st (ToggleSwitcher request innerWidth)) -/st' -/n
      -/direction in Ht Hsel.
    rewrite -/(step st (ToggleSwitcher request innerWidth)) -/st'.
    split_and!.
    + move=> Hd Hn. rewrite Hsel Hd. case: Z.ltb_spec => //. lia.
    + move=> Hd Hn. rewrite Hsel Hd. case: Z.ltb_spec => //. lia.
    + move=> Hn. rewrite Hsel /direction.
      case: (default _ _); case: Z.ltb_spec => //; lia.
    + move=> stored.
      have [-> [_ [-> [_ [_ ->]]]]] := showSwitcher_resume_fields stored st'.
      split_and!; [done| |done].
      rewrite -/n Hsel.
      have ? : 0 ≤ n by rewrite /n /JS.len; lia.
      rewrite /direction. case: (default _ _); case: Z.ltb_spec => ?; lia.
  - move=> Hvis Hsel Hm.
    have [_ Hmod] := onToggleSwitcher_visible st request innerWidth Hvis.
    move: (Hmod Hsel Hm).
    rewrite -/(step st (ToggleSwitcher request innerWidth)) -/st' -/m
      -/direction => {}Hmod.
    rewrite -/(step st (ToggleSwitcher request innerWidth)) -/st'.
    split_and!.
    + move=> Hd. by rewrite Hmod Hd.
    + move=> Hd. by rewrite Hmod Hd.
    + move=> Hd Hlast. rewrite Hmod Hd Hlast.
      have -> : m - 1 + 1 = 1 * m by lia. rewrite Z.mod_mul //. lia.
    + move=> Hd Hfirst. rewrite Hmod Hd Hfirst.
      have -> : 0 - 1 = m - 1 + (-1) * m by lia.
      rewrite Z.mod_add; first lia. apply Z.mod_small. lia.
    + rewrite Hmod /direction.
      case: (default _ _); apply Z.mod_pos_bound; lia.
    + rewrite Hmod /direction.
      case: (default _ _); apply Z.mod_pos_bound; lia.
Qed.
End toggle_facts.

Lemma toggleSwitcher_selection_witness :
  let st :=
    Content.mkState true true
      [mkTab 1 None (Some "A") None; mkTab 2 None (Some "B") None;
       mkTab 3 None (Some "C") None]
      (Some 1) 2 EmptyString true false false false Content.defaultSettings
      [Content.switcherShown] in
  let request :=
    mkToggleRequest
      (Some [mkTab 1 None (Some "A") None; mkTab 2 None (Some "B") None;
             mkTab 3 None (Some "C") None]) 1 (Some Forward) in
  let st' := @Content.step ascii_strings st (Content.ToggleSwitcher request 1920) in
  Content.selectedIndex st' = 0 ∧
  Content.selectedIndex st' =
    (Content.selectedIndex st + 1)
      `mod` JS.len (@Content.getFilteredTabs ascii_strings st').
Proof.
  move=> st request st'.
  have [_ [_ Hvisible]] :=
    @toggleSwitcher_selection ascii_strings st request 1920.
  have [Hforward [_ [Hwrap _]]] := Hvisible eq_refl ltac:(done) ltac:(done).
  split; [exact: Hwrap|exact: Hforward].
Defined.

(** ** Closing the selected tab *)

Section close_facts.
Context `{HostStrings}.
Import Content.
Implicit Types (st : State) (key : string) (tab : Tab).


Lemma hideSwitcher_fields st :
  let st' := hideSwitcher st in
  switcherVisible st' = false ∧
  currentTabs st' = currentTabs st ∧
  currentTabId st' = currentTabId st ∧
  selectedIndex st' = selectedIndex st.
Proof. rewrite /hideSwitcher. by case Hv: (switcherVisible st). Qed.

(** The callback of a successful [closeTab] request. *)
Lemma onCloseTabResponse_spec tabId success st :
  0 ≤ selectedIndex st →
  let st' := onCloseTabResponse tabId (Some success) st in
  currentTabs st' = filter (λ t, tab_id t ≠ tabId) (currentTabs st) ∧
  (currentTabs st' = [] → switcherVisible st' = false) ∧
  (currentTabs st' ≠ [] →
     switcherVisible st' = switcherVisible st ∧
     selectedIndex st' < JS.len (currentTabs st')) ∧
  0 ≤ selectedIndex st' ≤ selectedIndex st ∧
  (selectedIndex st < JS.len (getFilteredTabs st') →
     selectedIndex st' = selectedIndex st).
Proof.
  move=> Hsel. rewrite /onCloseTabResponse.
  set tabs := filter _ _. set st0 := set_currentTabs tabs st.
  set st1 := (if _ <=? _ then _ else _).
  have Ht1 : currentTabs st1 = tabs by rewrite /st1; case: (_ <=? _).
  have Hv1 : switcherVisible st1 = switcherVisible st
    by rewrite /st1; case: (_ <=? _).
  have Hs1 : selectedIndex st1 =
    if JS.len tabs <=? selectedIndex st then Z.max 0 (JS.len tabs - 1)
    else selectedIndex st by rewrite /st1 /=; case: (_ <=? _).
  have Hq1 : getFilteredTabs st1 = getFilteredTabs st0
    by rewrite /st1; case: (_ <=? _).
  have Hlen : 0 ≤ JS.len tabs by rewrite /JS.len; lia.
  rewrite Ht1. case: Z.eqb_spec => Hempty /=.
  - have Hfl := @getFilteredTabs_length H (hideSwitcher st1).
    have [Hvh [Hth [_ Hsh]]] := hideSwitcher_fields st1.
    rewrite Hth Ht1 in Hfl. rewrite Hvh Hth Hsh Ht1 Hs1.
    have Hfl' : JS.len (getFilteredTabs (hideSwitcher st1)) ≤ JS.len tabs
      by rewrite /JS.len; lia.
    split_and!; try done; try (case: Z.leb_spec; lia).
    move=> Hne. case: Hne. by case: (tabs) Hempty.
  - have [-> [_ [-> [_ [_ [_ [_ Hf]]]]]]] := renderTabs_fields st1.
    rewrite Ht1 Hv1 renderTabs_selectedIndex Hs1 Hf Hq1.
    have Hfl := @getFilteredTabs_length H st0.
    change (currentTabs st0) with tabs in Hfl.
    have Hfl' : JS.len (getFilteredTabs st0) ≤ JS.len tabs
      by rewrite /JS.len; lia.
    split_and!; try done.
    + move=> Habs. by rewrite Habs in Hempty.
    + move=> _. split; first done.
      case: (shadowRoot st1); case: Z.leb_spec; lia.
    + case: (shadowRoot st1); case: Z.leb_spec; lia.
    + case: (shadowRoot st1); case: Z.leb_spec; lia.
    + case: (shadowRoot st1); case: Z.leb_spec; lia.
Qed.

End close_facts.


(** Closing is refused for the tab the session started from, and the last
    remaining tab of the list closes the switcher. *)
Example closeTab_examples :
  let st :=
    Content.mkState true true
      [mkTab 1 None (Some "A") None; mkTab 2 None (Some "B") None]
      (Some 1) 0 EmptyString true false false false Content.defaultSettings [] in
  let on_b := Content.set_selectedIndex 1 st in
  let gone :=
    @Content.run ascii_strings on_b
      [Content.KeyDown "w"; Content.CloseTabResponse 2 (Some true)] in
  @Content.step ascii_strings st (Content.KeyDown "w") = st ∧
  Content.sent gone = [Content.closeTabRequest 2] ∧
  tab_id <$> Content.currentTabs gone = [1] ∧
  Content.selectedIndex gone = 0 ∧
  Content.switcherVisible gone = true ∧
  Content.switcherVisible
    (@Content.step ascii_strings gone
       (Content.CloseTabResponse 1 (Some true))) = false.
Proof. done. Qed.

(** The callback does not read the response: a response that reports a
    failure removes the tab from the list as well. *)
Example closeTab_failed_response :
  let st :=
    Content.mkState true true
      [mkTab 1 None (Some "A") None; mkTab 2 None (Some "B") None]
      (Some 1) 1 EmptyString true false false false Content.defaultSettings [] in
  tab_id <$> Content.currentTabs
    (@Content.run ascii_strings st
       [Content.KeyDown "w"; Content.CloseTabResponse 2 (Some false)]) = [1] ∧
  tab_id <$> Content.currentTabs
    (@Content.run ascii_strings st
       [Content.KeyDown "w"; Content.CloseTabResponse 2 None]) = [1; 2].
Proof. done. Qed.

(** ** At most 20 candidates *)

Section payload_facts.
Context `{HostStrings}.
Import Content.
Implicit Types (st : State) (e : Event) (request : ToggleRequest).









(** The selected index is never negative. *)
Lemma selectedIndex_nonneg_step st e :
  0 ≤ selectedIndex st → 0 ≤ selectedIndex (step st e).
Proof.
  have Hrender : ∀ st0, 0 ≤ selectedIndex st0 →
                        0 ≤ selectedIndex (renderTabs st0).
  { move=> st0 ?. rewrite renderTabs_selectedIndex.
    case: (shadowRoot st0); lia. }
  have Hrem : ∀ a m, 0 ≤ a → 0 < m → 0 ≤ JS.rem a m.
  { move=> a m ? ?. apply Z.rem_nonneg; lia. }
  case: e => [request innerWidth|stored|key|key| |index| |tabId response]
    /= Hsel.
  - rewrite /onToggleSwitcher /=. case: (switcherVisible st).
    + case: Z.ltb_spec => Hm //. apply: Hrender.
      case: (default Forward _) => /=; apply: Hrem; lia.
    + case: (default Forward _) => /=; case: Z.ltb_spec; lia.
  - have [_ [_ [_ [_ [_ ->]]]]] := showSwitcher_resume_fields stored st. lia.
  - rewrite /handleGlobalKeydown.
    have := trackModifiers_fields key true st.
    move: (trackModifiers key true st) => st1 /= [_ [_ [_ [_ [Hi1 _]]]]].
    have := trackModifiers_fields key true st1.
    move: (trackModifiers key true st1) => st2 /= [_ [_ [_ [_ [Hi2 _]]]]].
    have Hs2 : 0 ≤ selectedIndex st2 by lia.
    have [_ [_ [_ Hh]]] := hideSwitcher_fields st2.
    have Hclose : 0 ≤ selectedIndex (closeSelectedTab st2).
    { rewrite /closeSelectedTab. by repeat case_match. }
    repeat case_match => //; try lia.
    all: apply: Hrender => /=; apply: Hrem; try lia.
    all: by match goal with
            | Hlt : (0 <? _) = true |- _ => move: Hlt => /Z.ltb_lt; lia
            end.
  - rewrite /handleGlobalKeyup /switchToTab.
    have := trackModifiers_fields key false st.
    move: (trackModifiers key false st) => st1 /= [_ [_ [_ [_ [Hi1 _]]]]].
    have := trackModifiers_fields key false st1.
    move: (trackModifiers key false st1) => st2 /= [_ [_ [_ [_ [Hi2 _]]]]].
    repeat case_match => //=; lia.
  - done.
  - apply: Hrender => /=. lia.
  - have [_ [_ [_ ->]]] := hideSwitcher_fields st. done.
  - case: response => [success|]; last done.
    by have [_ [_ [_ [[? _] _]]]] :=
      onCloseTabResponse_spec tabId success st Hsel.
Qed.

Lemma selectedIndex_nonneg events :
  0 ≤ selectedIndex (run initial events).
Proof.
  rewrite /run. have : 0 ≤ selectedIndex initial by done.
  elim: events initial => [//|e events IH] st Hst /=.
  apply: IH. exact: selectedIndex_nonneg_step.
Qed.
End payload_facts.


(** The message for a window of 25 tabs carries 20 of them, the MRU ones
    first; a wide window or a configured capacity of 50 does not bring the
    others back. *)
Example toggle_payload :
  let allTabs := (λ i, mkTab (Z.of_nat i) None None None) <$> seq 1 25 in
  let sent :=
    Background.toggleTabSwitcher [7; 3] [] (Some (mkTab 7 None None None))
      true allTabs Forward in
  let wide :=
    Content.set_currentSettings
      (Content.mkSettings (Content.Parsed 50) None) Content.initial in
  (tab_id <$> default [] (sent ≫= req_tabs)) =
    [7; 3; 1; 2; 4; 5; 6; 8; 9; 10; 11; 12; 13; 14; 15; 16; 17; 18; 19; 20] ∧
  match sent with
  | Some request =>
      length (Content.currentTabs
                (@Content.step ascii_strings wide
                   (Content.ToggleSwitcher request 3840))) = 20%nat
  | None => False
  end.
Proof. done. Qed.

(** The two invariants of C1 are needed: an id held twice by the MRU list
    puts its tab into the result twice. *)
Example sortTabsByMRU_needs_its_invariants :
  Background.sortTabsByMRU [1; 1] [mkTab 1 None None None] =
    [mkTab 1 None None None; mkTab 1 None None None].
Proof. reflexivity. Qed.

(** * Further properties of the code *)

(** ** The other MRU updates *)

Section mru_more.
Import Background.
Implicit Types (mru : list Z) (x : Z) (tab : Tab) (tabs : list Tab).

(** X1. Activating the tab that is already the most recent one changes
    nothing: the update is idempotent. *)
Theorem onActivated_idempotent mru x :
  onActivated (onActivated mru x) x = onActivated mru x.
Proof.
  rewrite !onActivated_take /unbounded /=. f_equal.
  set L := filter (λ id, id ≠ x) mru.
  rewrite filter_cons_False; first by move=> Hx; apply: Hx.
  rewrite filter_all; last by rewrite take_idemp.
  move=> id Hid. have := subseteq_take 99 L id Hid.
  by move=> /list_elem_of_filter [].
Qed.

(** X2. Removing a tab takes its id out of the list and nothing else;
    the ids that stay keep their order. Removing the tab that was just
    activated gives the list that removing it alone gives, cut to 99
    entries. *)
Theorem onRemoved_spec mru x :
  (x ∉ onRemoved mru x) ∧
  onRemoved mru x `sublist_of` mru ∧
  (∀ y, y ≠ x → (y ∈ onRemoved mru x ↔ y ∈ mru)) ∧
  (x ∉ mru → onRemoved mru x = mru) ∧
  (NoDup mru → NoDup (onRemoved mru x)) ∧
  onRemoved (onActivated mru x) x = take 99 (onRemoved mru x).
Proof.
  rewrite /onRemoved. split_and!.
  - by move=> /list_elem_of_filter [].
  - apply sublist_filter.
  - move=> y Hy. rewrite list_elem_of_filter. tauto.
  - exact: filter_ne_id.
  - exact: NoDup_filter.
  - rewrite onActivated_take /unbounded /=.
    rewrite filter_cons_False; first by move=> Hx; apply: Hx.
    apply: filter_all => id Hid. have := subseteq_take 99 _ id Hid.
    by move=> /list_elem_of_filter [].
Qed.

Lemma onRemoved_spec_witness :
  onRemoved [1; 2; 3] 7 = [1; 2; 3] ∧ NoDup (onRemoved [1; 2; 3] 2).
Proof.
  split.
  - apply (proj1 (proj2 (proj2 (proj2 (onRemoved_spec [1; 2; 3] 7))))).
    compute_done.
  - apply (proj1 (proj2 (proj2 (proj2 (proj2 (onRemoved_spec [1; 2; 3] 2)))))).
    compute_done.
Defined.

(** X3. A focus change to a window puts that window's active tab at the
    front and keeps every other id, in order: no id is dropped, so the
    list may grow past 100 entries. With no window focused, or no active
    tab reported, the list is unchanged. *)
Theorem onFocusChanged_spec mru windowId tabs :
  (windowId = WINDOW_ID_NONE ∨ tabs = [] →
     onFocusChanged mru windowId tabs = mru) ∧
  (∀ tab rest, windowId ≠ WINDOW_ID_NONE → tabs = tab :: rest →
     onFocusChanged mru windowId tabs = unbounded mru (tab_id tab) ∧
     head (onFocusChanged mru windowId tabs) = Some (tab_id tab) ∧
     (∀ y, y ∈ onFocusChanged mru windowId tabs ↔ y = tab_id tab ∨ y ∈ mru) ∧
     (NoDup mru → NoDup (onFocusChanged mru windowId tabs)) ∧
     (tab_id tab ∉ mru →
        length (onFocusChanged mru windowId tabs) = S (length mru))).
Proof.
  rewrite /onFocusChanged. split.
  - move=> [->|->]; first by rewrite bool_decide_true.
    by case: (bool_decide _).
  - move=> tab rest Hw ->. rewrite bool_decide_false //= /unbounded.
    split_and!; try done.
    + move=> y. rewrite elem_of_cons list_elem_of_filter.
      case: (decide (y = tab_id tab)); tauto.
    + move=> Hnd. apply NoDup_cons. split; last exact: NoDup_filter.
      by move=> /list_elem_of_filter [].
    + move=> Hx. by rewrite filter_ne_id.
Qed.

Lemma onFocusChanged_spec_witness :
  let mru := Z.of_nat <$> seq 1 100 in
  let tab := mkTab 500 None None None in
  onFocusChanged mru 3 [tab] = unbounded mru (tab_id tab) ∧
  head (onFocusChanged mru 3 [tab]) = Some (tab_id tab) ∧
  (∀ y, y ∈ onFocusChanged mru 3 [tab] ↔ y = tab_id tab ∨ y ∈ mru) ∧
  NoDup (onFocusChanged mru 3 [tab]) ∧
  length (onFocusChanged mru 3 [tab]) = 101%nat.
Proof.
  move=> mru tab.
  have [|//|-> [-> [Hin [Hnd Hlen]]]] :=
    proj2 (onFocusChanged_spec mru 3 [tab]) tab []; first done.
  split_and!; [done|done|done|apply Hnd|apply Hlen]; rewrite /mru /tab;
    compute_done.
Defined.

(** X5. The tab that was just activated is the first candidate of the
    sorted list, whatever the list held before. *)
Theorem activated_tab_sorts_first mru tabs tab :
  NoDup (tab_id <$> tabs) → tab ∈ tabs →
  head (sortTabsByMRU (onActivated mru (tab_id tab)) tabs) = Some tab.
Proof.
  move=> Hnd Hin.
  rewrite sortTabsByMRU_eq onActivated_take /unbounded /=.
  by rewrite tabMap_lookup_NoDup.
Qed.

Lemma activated_tab_sorts_first_witness :
  let tabs := [mkTab 1 None None None; mkTab 2 None None None;
               mkTab 3 None None None] in
  head (sortTabsByMRU (onActivated [1; 2] 3) tabs) =
    Some (mkTab 3 None None None).
Proof.
  move=> tabs.
  apply (activated_tab_sorts_first [1; 2] tabs (mkTab 3 None None None));
    compute_done.
Defined.

Lemma setOf_fold (s ids : list Z) :
  NoDup s →
  let r := foldl (λ s id, if decide (id ∈ s) then s else s ++ [id]) s ids in
  NoDup r ∧ (∀ x, x ∈ r ↔ x ∈ s ∨ x ∈ ids) ∧
  (NoDup (s ++ ids) → r = s ++ ids).
Proof.
  elim: ids s => [|id ids IH] s Hs /=.
  - split_and!; [done| |by rewrite app_nil_r].
    move=> x. rewrite elem_of_nil. tauto.
  - case: (decide (id ∈ s)) => Hid.
    + have [Hnd [Hin Heq]] := IH s Hs. split_and!; first done.
      * move=> x. rewrite Hin elem_of_cons. split; first tauto.
        move=> [?|[->|?]]; tauto.
      * move=> /NoDup_app [_ [Hdis _]]. case: (Hdis id Hid). by left.
    + have Hs' : NoDup (s ++ [id]).
      { apply NoDup_app. split_and!; [done| |apply NoDup_singleton].
        move=> x Hx /list_elem_of_singleton ?. by subst. }
      have [Hnd [Hin Heq]] := IH (s ++ [id]) Hs'. split_and!; first done.
      * move=> x. rewrite Hin elem_of_app list_elem_of_singleton elem_of_cons.
        tauto.
      * rewrite (assoc_L _ s [id] ids : s ++ id :: ids = (s ++ [id]) ++ ids).
        exact: Heq.
Qed.

Lemma setOf_spec (ids : list Z) :
  NoDup (setOf ids) ∧ (∀ x, x ∈ setOf ids ↔ x ∈ ids) ∧
  (NoDup ids → setOf ids = ids).
Proof.
  have [Hnd [Hin Heq]] := setOf_fold [] ids (NoDup_nil_2).
  split_and!; [done| |done].
  move=> x. rewrite /setOf Hin elem_of_nil. tauto.
Qed.

(** The list that [reconcileOnInit] builds, whichever branch it takes:
    the active tabs' ids, then the tracked ids of the other live tabs in
    MRU order, then the ids of the live tabs the MRU list does not hold. *)
Lemma reconcileOnInit_eq mru (tabs : list (Tab * bool)) :
  let ids := (λ t, tab_id t.1) <$> tabs in
  let active := (λ t, tab_id t.1) <$> filter (λ t, t.2 = true) tabs in
  NoDup ids →
  reconcileOnInit mru tabs =
    active ++
    filter (λ id, id ∈ ids ∧ id ∉ active) mru ++
    ((λ t, tab_id t.1) <$>
       filter (λ t, (tab_id t.1 ∉ active) ∧ tab_id t.1 ∉ mru) tabs).
Proof.
  move=> ids active Hids. rewrite /reconcileOnInit.
  have [_ [Hall _]] := setOf_spec ids. rewrite -/ids.
  have Hactive : NoDup active.
  { apply: sublist_NoDup; first exact: Hids.
    apply fmap_sublist, sublist_filter. }
  have [_ [_ Hset]] := setOf_spec active. rewrite (Hset Hactive) {Hset}.
  have Hvalid : filter (λ id, id ∈ setOf ids) mru = filter (λ id, id ∈ ids) mru.
  { exact: list_filter_iff. }
  rewrite Hvalid.
  have Hlive : ∀ t, t ∈ tabs → tab_id t.1 ∈ ids.
  { move=> t Ht. apply list_elem_of_fmap. by exists t. }
  case: Z.eqb_spec => Hlen.
  - have Hnil : filter (λ id, id ∈ ids) mru = [].
    { move: Hlen. rewrite /JS.len. by case: (filter _ _). }
    have -> : filter (λ id, id ∈ ids ∧ id ∉ active) mru = [].
    { apply: filter_none => id Hid [Hlv _].
      have : id ∈ filter (λ id, id ∈ ids) mru by apply list_elem_of_filter.
      by rewrite Hnil => /elem_of_nil. }
    rewrite /=. do 2 f_equal. apply: filter_ext_elem => t Ht.
    split; last tauto. move=> Hna. split; first done. move=> Hmru.
    have : tab_id t.1 ∈ filter (λ id, id ∈ ids) mru.
    { apply list_elem_of_filter. split; [exact: Hlive|done]. }
    by rewrite Hnil => /elem_of_nil.
  - rewrite list_filter_filter -app_assoc.
    have Htracked : filter (λ id, (id ∉ active) ∧ id ∈ ids) mru =
                    filter (λ id, id ∈ ids ∧ id ∉ active) mru.
    { apply list_filter_iff => id. tauto. }
    rewrite Htracked. do 3 f_equal. apply: filter_ext_elem => t Ht.
    have [_ [Hknown _]] :=
      setOf_spec (active ++ filter (λ id, id ∈ ids ∧ id ∉ active) mru).
    rewrite Hknown elem_of_app list_elem_of_filter.
    have := Hlive t Ht. case: (decide (tab_id t.1 ∈ active)); tauto.
Qed.

Lemma ids_filter_elem (P : Tab * bool → Prop) `{!∀ t, Decision (P t)}
    (tabs : list (Tab * bool)) id :
  id ∈ (λ t, tab_id t.1) <$> filter P tabs → id ∈ (λ t, tab_id t.1) <$> tabs.
Proof.
  move=> /list_elem_of_fmap [t [Heq /list_elem_of_filter [_ Ht]]].
  apply list_elem_of_fmap. by exists t.
Qed.

Lemma ids_filter_NoDup (P : Tab * bool → Prop) `{!∀ t, Decision (P t)}
    (tabs : list (Tab * bool)) :
  NoDup ((λ t, tab_id t.1) <$> tabs) →
  NoDup ((λ t, tab_id t.1) <$> filter P tabs).
Proof.
  move=> Hids. apply: sublist_NoDup; first exact: Hids.
  apply fmap_sublist, sublist_filter.
Qed.

(** X4. When the worker starts, with live tabs of distinct ids and a
    stored MRU list that holds no id twice, the rebuilt MRU list holds no
    id twice, holds exactly the ids of the live tabs, starts with the
    active tabs' ids in host order, continues with the tracked ids in
    their stored order and ends with the untracked ones in host order. *)
Theorem reconcileOnInit_spec mru (tabs : list (Tab * bool)) :
  let ids := (λ t, tab_id t.1) <$> tabs in
  let active := (λ t, tab_id t.1) <$> filter (λ t, t.2 = true) tabs in
  NoDup mru → NoDup ids →
  NoDup (reconcileOnInit mru tabs) ∧
  (∀ id, id ∈ reconcileOnInit mru tabs ↔ id ∈ ids) ∧
  reconcileOnInit mru tabs =
    active ++
    filter (λ id, id ∈ ids ∧ id ∉ active) mru ++
    ((λ t, tab_id t.1) <$>
       filter (λ t, (tab_id t.1 ∉ active) ∧ tab_id t.1 ∉ mru) tabs).
Proof.
  move=> ids active Hmru Hids.
  have Heq := reconcileOnInit_eq mru tabs Hids. rewrite -/ids -/active in Heq.
  split_and!; last done.
  - rewrite Heq. apply NoDup_app. split_and!; first exact: ids_filter_NoDup.
    + move=> id Hid /elem_of_app [/list_elem_of_filter [[_ Hna] _] //|].
      move=> /list_elem_of_fmap [t [? /list_elem_of_filter [[Hna _] _]]].
      by subst.
    + apply NoDup_app.
      split_and!; [exact: NoDup_filter| |exact: ids_filter_NoDup].
      move=> id /list_elem_of_filter [_ Hin].
      move=> /list_elem_of_fmap [t [? /list_elem_of_filter [[_ Hnm] _]]].
      by subst.
  - move=> id. rewrite Heq !elem_of_app list_elem_of_filter. split.
    + move=> [|[|]]; [exact: ids_filter_elem|tauto|exact: ids_filter_elem].
    + move=> Hid.
      case: (decide (id ∈ active)) => Ha; first by left.
      case: (decide (id ∈ mru)) => Hm; first by right; left.
      right; right. move: Hid => /list_elem_of_fmap [t [? Ht]]. subst id.
      apply list_elem_of_fmap. exists t. split; first done.
      by apply list_elem_of_filter.
Qed.

Lemma reconcileOnInit_spec_witness :
  let tabs := [(mkTab 1 None None None, false); (mkTab 2 None None None, true);
               (mkTab 3 None None None, false); (mkTab 4 None None None, false)] in
  NoDup (reconcileOnInit [3; 9; 2; 1] tabs) ∧
  (∀ id, id ∈ reconcileOnInit [3; 9; 2; 1] tabs ↔
         id ∈ (λ t, tab_id t.1) <$> tabs) ∧
  reconcileOnInit [3; 9; 2; 1] tabs = [2; 3; 1; 4].
Proof.
  move=> tabs.
  have [|//|? [? ->]] := reconcileOnInit_spec [3; 9; 2; 1] tabs;
    [compute_done..|].
  split_and!; [done|done|reflexivity].
Defined.
End mru_more.

(** ** More on the screenshot cache *)

Section cache_more.
Import Background.
Implicit Types (cache entries : Cache) (kv : Z * Entry) (tabId k : Z).

Lemma map_get_map_set {V} (m : list (Z * V)) k v :
  JS.map_get k (JS.map_set k v m) = Some v.
Proof.
  elim: m => [|[k' v'] m IH] /=; first by rewrite decide_True.
  case: (decide (k' = k)) => Hk /=; first by rewrite decide_True.
  by rewrite decide_False.
Qed.

Lemma map_get_map_set_ne {V} (m : list (Z * V)) k k' v :
  k' ≠ k → JS.map_get k' (JS.map_set k v m) = JS.map_get k' m.
Proof.
  move=> Hne. elim: m => [|[k0 v0] m IH] /=.
  - rewrite decide_False //.
  - case: (decide (k0 = k)) => Hk /=.
    + subst k0. by rewrite !decide_False.
    + by case: (decide (k0 = k')).
Qed.

Lemma map_get_elem_of {V} (m : list (Z * V)) k v :
  JS.map_get k m = Some v → (k, v) ∈ m.
Proof.
  elim: m => [//|[k' v'] m IH] /=. case: (decide (k' = k)) => [->|_].
  - move=> [->]. by left.
  - move=> /IH ?. by right.
Qed.

Lemma map_get_app {V} (m1 m2 : list (Z * V)) k :
  JS.map_get k (m1 ++ m2) =
  match JS.map_get k m1 with Some v => Some v | None => JS.map_get k m2 end.
Proof. elim: m1 => [//|[k' v'] m1 IH] /=. by case: (decide (k' = k)). Qed.

(** Two lists of entries with the same entries, one per key, answer every
    lookup alike. *)
Lemma map_get_Permutation {V} (m1 m2 : list (Z * V)) k :
  NoDup m1.*1 → m1 ≡ₚ m2 → JS.map_get k m1 = JS.map_get k m2.
Proof.
  move=> Hnd Hperm.
  have Hnd2 : NoDup m2.*1 by rewrite -Hperm.
  case H1: (JS.map_get k m1) => [v|].
  - symmetry. apply map_get_Some => //. rewrite -Hperm.
    exact: map_get_elem_of.
  - case H2: (JS.map_get k m2) => [v|//].
    have Hin : (k, v) ∈ m1 by rewrite Hperm; exact: map_get_elem_of.
    by rewrite (map_get_Some _ _ _ Hnd Hin) in H1.
Qed.

Lemma getScreenshot_by_id cache tabId url entry :
  JS.map_get tabId cache = Some entry → JS.truthy (entry_dataUrl entry) = true →
  getScreenshot cache tabId url = Some (entry_dataUrl entry).
Proof. rewrite /getScreenshot. by move=> -> ->. Qed.

(** X6. A screenshot that has just been stored is read back by its tab
    id, whatever URL is asked for: this holds when the id was already
    cached, when the cache was not full, and when some cached entry is not
    newer than the new one (so the new one is not the one evicted). *)
Theorem setScreenshot_getScreenshot cache tabId dataUrl url now url' :
  NoDup cache.*1 → (length cache ≤ 25)%nat → JS.truthy dataUrl = true →
  tabId ∈ cache.*1 ∨ (length cache < 25)%nat ∨
    Exists (λ kv, timestampOrZero kv ≤ now) cache →
  getScreenshot (setScreenshot cache tabId dataUrl url now) tabId url' =
    Some dataUrl.
Proof.
  move=> Hnd Hlen Himg Hcase.
  set new := mkEntry dataUrl (Some now) url.
  suff Hget : JS.map_get tabId (setScreenshot cache tabId dataUrl url now) =
              Some new by exact: (getScreenshot_by_id _ _ _ new).
  have Hsmall : (length (JS.map_set tabId new cache) ≤ 25)%nat →
    JS.map_get tabId (setScreenshot cache tabId dataUrl url now) = Some new.
  { move=> Hle. rewrite /setScreenshot /pruneScreenshotCache
      /MAX_SCREENSHOT_CACHE_ITEMS /JS.map_size /JS.len -/new.
    case: Z.leb_spec => ?; last lia. exact: map_get_map_set. }
  have Hkeys := map_set_keys tabId new cache.
  have Hlenk : length (JS.map_set tabId new cache) =
               length (JS.map_set tabId new cache).*1 by rewrite length_fmap.
  case: (decide (tabId ∈ cache.*1)) Hkeys => Hin Hkeys.
  { apply Hsmall. rewrite Hlenk Hkeys length_fmap. lia. }
  case: (decide (length cache < 25)%nat) => Hlt.
  { apply Hsmall. rewrite Hlenk Hkeys length_app length_fmap /=. lia. }
  have Hold : Exists (λ kv, timestampOrZero kv ≤ now) cache by tauto.
  have [victim [_ [-> _]]] :=
    setScreenshot_at_cap cache tabId dataUrl url now Hnd ltac:(lia) Hin Hold.
  rewrite map_get_app map_get_None /=; last by rewrite decide_True.
  move=> /elem_of_map_delete_keys [_ ?]. by apply: Hin.
Qed.

Lemma setScreenshot_getScreenshot_witness :
  let cache : Cache :=
    (λ i, (Z.of_nat i, mkEntry "img" (Some (100 - Z.of_nat i)) None))
      <$> seq 1 25 in
  getScreenshot (setScreenshot cache 26 "new" None 200) 26 (Some "x"%string) =
    Some "new"%string.
Proof.
  move=> cache.
  apply (setScreenshot_getScreenshot cache 26 "new" None 200);
    rewrite /cache; [compute_done..|].
  right; right. compute_done.
Defined.

(** X7. A put never alters what the cache holds for another tab: after
    it, any other id has the entry it had before, or none (it was
    evicted). *)
Theorem setScreenshot_other_entries cache tabId dataUrl url now k entry :
  NoDup cache.*1 → k ≠ tabId →
  JS.map_get k (setScreenshot cache tabId dataUrl url now) = Some entry →
  JS.map_get k cache = Some entry.
Proof.
  move=> Hnd Hne Hget. rewrite /setScreenshot in Hget.
  set inserted := JS.map_set _ _ _ in Hget.
  have Hins : NoDup inserted.*1 by apply map_set_NoDup.
  have [Hsub _] := pruneScreenshotCache_spec inserted Hins.
  have Hin : (k, entry) ∈ inserted.
  { apply: elem_of_sublist; last exact: Hsub. exact: map_get_elem_of. }
  have := map_get_Some _ _ _ Hins Hin. by rewrite /inserted map_get_map_set_ne.
Qed.

Lemma setScreenshot_other_entries_witness :
  let cache : Cache :=
    [(1, mkEntry "imgA" (Some 10) None); (2, mkEntry "imgB" (Some 20) None)] in
  JS.map_get 1 cache = Some (mkEntry "imgA" (Some 10) None).
Proof.
  move=> cache.
  apply (setScreenshot_other_entries cache 2 "new" None 30 1); by compute_done.
Defined.

(** X8. Deleting a tab's screenshot removes the entry keyed by its id and
    leaves every other lookup as it was; deleting an id that is not
    cached changes nothing. *)
Theorem deleteScreenshot_spec cache tabId :
  (∀ k, JS.map_get k (deleteScreenshot cache tabId) =
        if decide (k = tabId) then None else JS.map_get k cache) ∧
  deleteScreenshot cache tabId `sublist_of` cache ∧
  (tabId ∉ cache.*1 → deleteScreenshot cache tabId = cache) ∧
  getScreenshot (deleteScreenshot cache tabId) tabId None = None.
Proof.
  have Hget : ∀ k, JS.map_get k (deleteScreenshot cache tabId) =
                   if decide (k = tabId) then None else JS.map_get k cache.
  { move=> k. rewrite /deleteScreenshot /JS.map_delete.
    elim: cache => [|[k' e] cache IH]; first by case: (decide _).
    case: (decide (k' = tabId)) => Hk'.
    - rewrite filter_cons_False /=; first by move=> Hne; apply: Hne.
      rewrite IH. case: (decide (k = tabId)) => Hk; first done.
      rewrite decide_False //. congruence.
    - rewrite filter_cons_True //=. case: (decide (k' = k)) => Hkk; last done.
      rewrite decide_False //. congruence. }
  split_and!; first done.
  - apply sublist_filter.
  - exact: map_delete_absent.
  - by rewrite /getScreenshot Hget decide_True.
Qed.

Lemma deleteScreenshot_spec_witness :
  let cache : Cache :=
    [(1, mkEntry "imgA" (Some 10) None); (2, mkEntry "imgB" (Some 20) None)] in
  deleteScreenshot cache 7 = cache.
Proof.
  move=> cache.
  apply (proj1 (proj2 (proj2 (deleteScreenshot_spec cache 7)))). compute_done.
Defined.

Lemma plainObject_lookup cache k :
  NoDup cache.*1 → plainObject cache !! k = JS.map_get k cache.
Proof.
  rewrite /plainObject. elim/rev_ind: cache => [|[k' e] cache IH].
  - by rewrite /= lookup_empty.
  - rewrite fmap_app => /NoDup_app [Hnd [Hdis _]].
    rewrite foldl_snoc /= lookup_insert map_get_app /=.
    case: (decide (k' = k)) => Hk.
    + subst k'. rewrite map_get_None //. move=> Hin. apply: (Hdis k Hin).
      by left.
    + rewrite IH //. by case: (JS.map_get k cache).
Qed.

Lemma plainObject_entries cache :
  NoDup cache.*1 → map_to_list (plainObject cache) ≡ₚ cache.
Proof.
  move=> Hnd. apply NoDup_Permutation.
  - apply NoDup_map_to_list.
  - exact: NoDup_fmap_1 Hnd.
  - move=> [k v]. rewrite elem_of_map_to_list plainObject_lookup //. split.
    + exact: map_get_elem_of.
    + exact: map_get_Some.
Qed.

Lemma loadScreenshotCache_eq cache entries :
  NoDup (cache.*1 ++ entries.*1) →
  loadScreenshotCache cache entries =
  cache ++ filter (λ kv, JS.truthy (entry_dataUrl kv.2)) entries.
Proof.
  rewrite /loadScreenshotCache.
  elim: entries cache => [|[id e] entries IH] cache Hnd /=.
  - by rewrite app_nil_r.
  - have Hperm : cache.*1 ++ id :: entries.*1 ≡ₚ id :: (cache.*1 ++ entries.*1)
      by rewrite Permutation_middle.
    move: (Hnd). rewrite fmap_cons Hperm => /NoDup_cons [/= Hid Hrest].
    rewrite filter_cons /=. case Himg: (JS.truthy (entry_dataUrl e)) => /=.
    + rewrite map_set_fresh.
      { move=> Hin. apply: Hid. apply elem_of_app. by left. }
      rewrite IH; last by rewrite -app_assoc.
      rewrite fmap_app /= -app_assoc /=. exact: Hnd.
    + exact: IH.
Qed.

(** X9. Persisting the cache and loading it again, in whatever order the
    stored object lists its entries, gives a cache with one entry per id
    that holds exactly the persisted entries that have an image; when all
    have one, every lookup by tab id answers as before. *)
Theorem persist_load_roundtrip cache entries :
  NoDup cache.*1 → entries ≡ₚ map_to_list (plainObject cache) →
  let loaded := loadScreenshotCache [] entries in
  loaded ≡ₚ filter (λ kv, JS.truthy (entry_dataUrl kv.2)) cache ∧
  NoDup loaded.*1 ∧
  (Forall (λ kv, JS.truthy (entry_dataUrl kv.2)) cache →
     loaded = entries ∧
     ∀ k, JS.map_get k loaded = JS.map_get k cache ∧
          getScreenshot loaded k None = getScreenshot cache k None).
Proof.
  move=> Hnd Hentries loaded.
  have Hperm : entries ≡ₚ cache by rewrite Hentries; exact: plainObject_entries.
  have Hkeys : NoDup entries.*1 by rewrite Hperm.
  have Heq : loaded = filter (λ kv, JS.truthy (entry_dataUrl kv.2)) entries.
  { by rewrite /loaded loadScreenshotCache_eq. }
  split_and!.
  - by rewrite Heq Hperm.
  - rewrite Heq. apply: sublist_NoDup; first exact: Hkeys.
    apply fmap_sublist, sublist_filter.
  - move=> Himg.
    have Hall : loaded = entries.
    { rewrite Heq. apply: filter_all => kv Hkv.
      move: Himg => /Forall_forall. apply. by rewrite -Hperm. }
    split; first done. move=> k.
    have Hget : JS.map_get k loaded = JS.map_get k cache.
    { rewrite Hall. exact: map_get_Permutation. }
    split; first done. by rewrite /getScreenshot Hget.
Qed.

Lemma persist_load_roundtrip_witness :
  let cache : Cache :=
    [(9, mkEntry "imgA" (Some 10) None); (2, mkEntry "imgB" (Some 20) None)] in
  let entries := [(2, mkEntry "imgB" (Some 20) None);
                  (9, mkEntry "imgA" (Some 10) None)] in
  let loaded := loadScreenshotCache [] entries in
  loaded = entries ∧
  ∀ k, JS.map_get k loaded = JS.map_get k cache ∧
       getScreenshot loaded k None = getScreenshot cache k None.
Proof.
  move=> cache entries loaded.
  have [||_ [_ Hall]] := persist_load_roundtrip cache entries.
  - compute_done.
  - etrans; last (symmetry; apply plainObject_entries; compute_done).
    apply Permutation_swap.
  - apply Hall. compute_done.
Defined.
End cache_more.

(** ** More on the switcher controller *)

Section controller_more.
Context `{HostStrings}.
Import Content.
Implicit Types (st : State) (key : string) (e : Event).

(** X10. A configured capacity is used as it is, whatever the width. In
    automatic mode the capacity is at least 1 and grows with the width;
    from a width of 384 on it is the largest number of 160-wide cards,
    8 apart, that fit into the width less the two 100-wide margins and the
    padding of 24. *)
Theorem getMaxTabsForWidth_fit settings innerWidth :
  (∀ n, maxTabs settings = Parsed n →
        getMaxTabsForWidth settings innerWidth = Some n) ∧
  (maxTabs settings = Auto →
   ∃ n, getMaxTabsForWidth settings innerWidth = Some n ∧ 1 ≤ n ∧
        (384 ≤ innerWidth →
           160 * n + 8 * (n - 1) ≤ innerWidth - 2 * 100 - 24
             < 160 * (n + 1) + 8 * n) ∧
        (innerWidth < 552 → n = 1) ∧
        (∀ wider n', innerWidth ≤ wider →
           getMaxTabsForWidth settings wider = Some n' → n ≤ n')).
Proof.
  rewrite /getMaxTabsForWidth. split; first by move=> n ->.
  move=> ->. eexists. split; first done.
  have Hw : innerWidth - 100 * 2 - 24 + 8 = innerWidth - 216 by lia.
  rewrite Hw. change (160 + 8) with 168.
  have Hdiv := Z.div_mod (innerWidth - 216) 168 ltac:(done).
  have Hmod := Z.mod_pos_bound (innerWidth - 216) 168 ltac:(done).
  split; first lia. split; first lia. split; first lia.
  move=> wider n' Hle [<-].
  have -> : wider - 100 * 2 - 24 + 8 = wider - 216 by lia.
  change (160 + 8) with 168.
  have := Z.div_le_mono (innerWidth - 216) (wider - 216) 168. lia.
Qed.

Lemma getMaxTabsForWidth_fit_witness :
  ∃ n, getMaxTabsForWidth defaultSettings 1920 = Some n ∧ 1 ≤ n ∧
       160 * n + 8 * (n - 1) ≤ 1920 - 2 * 100 - 24 < 160 * (n + 1) + 8 * n.
Proof.
  have [n [Hn [H1 [Hfit _]]]] :=
    proj2 (getMaxTabsForWidth_fit defaultSettings 1920) eq_refl.
  exists n. split_and!; [done|done|apply Hfit; lia..].
Defined.

(** X11. Escape cancels: with the switcher visible it hides it, sends
    only the [switcherHidden] message (no [switchToTab] request), clears
    the four modifier flags and leaves the tab list and the selection as
    they were. With the switcher hidden it changes nothing. *)
Theorem escape_cancels st :
  (switcherVisible st = true →
     let st' := step st (KeyDown "Escape") in
     switcherVisible st' = false ∧ shadowRoot st' = false ∧
     sent st' = sent st ++ [switcherHidden] ∧
     (∀ m, pressed m st' = false) ∧
     currentTabs st' = currentTabs st ∧
     selectedIndex st' = selectedIndex st) ∧
  (switcherVisible st = false → step st (KeyDown "Escape") = st).
Proof.
  split => Hvis.
  - rewrite /= /handleGlobalKeydown !trackModifiers_other // Hvis /=.
    rewrite /hideSwitcher Hvis /=. split_and!; try done. by case.
  - by rewrite /= /handleGlobalKeydown !trackModifiers_other // Hvis.
Qed.

Lemma length_substring0 (s : string) (n : nat) :
  String.length (String.substring 0 n s) = (n `min` String.length s)%nat.
Proof.
  elim: s n => [|c s IH] [|n] //=. by rewrite IH.
Qed.

Lemma length_append (s1 s2 : string) :
  String.length (String.append s1 s2) =
  (String.length s1 + String.length s2)%nat.
Proof. elim: s1 => [//|c s1 IH] /=. by rewrite IH. Qed.

Lemma prefix_substring0 (s : string) (n : nat) :
  String.prefix (String.substring 0 n s) s = true.
Proof.
  elim: s n => [|c s IH] [|n] //=. rewrite IH.
  by case: (Ascii.ascii_dec c c).
Qed.

(** X17. The title shown on a card is at most 30 characters long: a
    title of up to 30 characters is shown as it is, a longer one as its
    first 27 characters followed by three dots, and a tab without a title
    as "Untitled". *)
Theorem displayTitle_bound tab :
  let title := if JS.truthy_opt (tab_title tab)
               then default EmptyString (tab_title tab)
               else "Untitled"%string in
  (String.length (displayTitle tab) ≤ 30)%nat ∧
  ((String.length title ≤ 30)%nat → displayTitle tab = title) ∧
  ((30 < String.length title)%nat →
     ∃ shown, displayTitle tab = String.append shown "..." ∧
              String.length shown = 27%nat ∧
              String.prefix shown title = true ∧
              String.length (displayTitle tab) = 30%nat).
Proof.
  rewrite /displayTitle or_empty_default.
  set title := (if JS.truthy_opt _ then _ else _) => /=.
  case: Z.ltb_spec => Hlen.
  - have Hsub := length_substring0 title 27.
    split_and!.
    + rewrite length_append Hsub. change (String.length "...") with 3%nat.
      lia.
    + lia.
    + move=> _. exists (String.substring 0 27 title).
      split_and!; [done|lia|exact: prefix_substring0|].
      rewrite length_append Hsub. change (String.length "...") with 3%nat.
      lia.
  - split_and!; [lia|done|lia].
Qed.

Lemma displayTitle_bound_witness :
  let tab :=
    mkTab 1 None (Some "A very long page title that does not fit on a card")
      None in
  ∃ shown, displayTitle tab = String.append shown "..." ∧
           String.length shown = 27%nat ∧
           String.prefix shown (default EmptyString (tab_title tab)) = true ∧
           String.length (displayTitle tab) = 30%nat.
Proof.
  move=> tab. apply (proj2 (proj2 (displayTitle_bound tab))).
  rewrite /tab /=. lia.
Defined.

Lemma keydown_next st key :
  switcherVisible st = true → isModifierKey key = false →
  key ≠ "Escape"%string →
  toLowerCase key ≠ closeTabKey (currentSettings st) →
  key = nextTabKey (currentSettings st) →
  0 < JS.len (getFilteredTabs st) →
  step st (KeyDown key) =
    renderTabs
      (set_selectedIndex
         (JS.rem (selectedIndex st + 1) (JS.len (getFilteredTabs st))) st).
Proof.
  move=> Hvis Hmod Hesc Hclose Hnext Hm.
  rewrite /= /handleGlobalKeydown !trackModifiers_other // Hvis /=.
  rewrite (bool_decide_eq_false_2 _ Hesc : key_is key "Escape" = false).
  rewrite (bool_decide_eq_false_2 _ Hclose : key_is (toLowerCase key) _ = false).
  rewrite (bool_decide_eq_true_2 _ Hnext : key_is key _ = true).
  by case: Z.ltb_spec => //; lia.
Qed.

Lemma keydown_prev st key :
  switcherVisible st = true → isModifierKey key = false →
  key ≠ "Escape"%string →
  toLowerCase key ≠ closeTabKey (currentSettings st) →
  key ≠ nextTabKey (currentSettings st) →
  key = prevTabKey (currentSettings st) →
  0 < JS.len (getFilteredTabs st) →
  step st (KeyDown key) =
    renderTabs
      (set_selectedIndex
         (JS.rem (selectedIndex st - 1 + JS.len (getFilteredTabs st))
            (JS.len (getFilteredTabs st))) st).
Proof.
  move=> Hvis Hmod Hesc Hclose Hnext Hprev Hm.
  rewrite /= /handleGlobalKeydown !trackModifiers_other // Hvis /=.
  rewrite (bool_decide_eq_false_2 _ Hesc : key_is key "Escape" = false).
  rewrite (bool_decide_eq_false_2 _ Hclose : key_is (toLowerCase key) _ = false).
  rewrite (bool_decide_eq_false_2 _ Hnext : key_is key _ = false).
  rewrite (bool_decide_eq_true_2 _ Hprev : key_is key _ = true).
  by case: Z.ltb_spec => //; lia.
Qed.

(** A state whose selection has been moved to a position of the filtered
    list and rendered. *)
Lemma moved_fields st v :
  0 ≤ v < JS.len (getFilteredTabs st) →
  let st' := renderTabs (set_selectedIndex v st) in
  selectedIndex st' = v ∧
  switcherVisible st' = switcherVisible st ∧
  currentSettings st' = currentSettings st ∧
  getFilteredTabs st' = getFilteredTabs st.
Proof.
  move=> Hv /=.
  have [-> [_ [_ [_ [_ [-> [_ ->]]]]]]] := renderTabs_fields (set_selectedIndex v st).
  by rewrite renderTabs_in_range.
Qed.

(** X12. With the switcher visible and the selection on a tab of the
    filtered list, the next-tab key moves the selection one position
    forward and the previous-tab key one position back, both modulo the
    number of tabs; pressing one and then the other brings the selection
    back. The two keys must differ from each other, from Escape, from
    the modifiers and from the close-tab key, which are tested first. *)
Theorem next_prev_roundtrip st :
  let next := nextTabKey (currentSettings st) in
  let prev := prevTabKey (currentSettings st) in
  let m := JS.len (getFilteredTabs st) in
  switcherVisible st = true →
  isModifierKey next = false → isModifierKey prev = false →
  next ≠ "Escape"%string → prev ≠ "Escape"%string → prev ≠ next →
  toLowerCase next ≠ closeTabKey (currentSettings st) →
  toLowerCase prev ≠ closeTabKey (currentSettings st) →
  0 ≤ selectedIndex st < m →
  selectedIndex (step st (KeyDown next)) = (selectedIndex st + 1) `mod` m ∧
  selectedIndex (step st (KeyDown prev)) = (selectedIndex st - 1) `mod` m ∧
  selectedIndex (run st [KeyDown next; KeyDown prev]) = selectedIndex st ∧
  selectedIndex (run st [KeyDown prev; KeyDown next]) = selectedIndex st.
Proof.
  move=> next prev m Hvis Hmn Hmp Hen Hep Hne Hcn Hcp Hsel.
  have Hm : 0 < m by lia.
  have Hfwd : ∀ i, 0 ≤ i → JS.rem (i + 1) m = (i + 1) `mod` m.
  { move=> i ?. rewrite /JS.rem Z.rem_mod_nonneg //; lia. }
  have Hbwd : ∀ i, 0 ≤ i → JS.rem (i - 1 + m) m = (i - 1) `mod` m.
  { move=> i ?. rewrite /JS.rem Z.rem_mod_nonneg; [lia..|].
    have -> : i - 1 + m = i - 1 + 1 * m by lia. rewrite Z.mod_add //. lia. }
  have Hnext : ∀ st0, switcherVisible st0 = true →
    currentSettings st0 = currentSettings st →
    getFilteredTabs st0 = getFilteredTabs st → 0 ≤ selectedIndex st0 →
    selectedIndex (step st0 (KeyDown next)) = (selectedIndex st0 + 1) `mod` m.
  { move=> st0 Hv0 Hs0 Hf0 Hi0.
    rewrite keydown_next ?Hs0 ?Hf0 // -/m Hfwd //.
    have Hrange : 0 ≤ (selectedIndex st0 + 1) `mod` m
                    < JS.len (getFilteredTabs st0).
    { rewrite Hf0. apply Z.mod_pos_bound. lia. }
    by have [-> _] := moved_fields st0 _ Hrange. }
  have Hprev : ∀ st0, switcherVisible st0 = true →
    currentSettings st0 = currentSettings st →
    getFilteredTabs st0 = getFilteredTabs st → 0 ≤ selectedIndex st0 →
    selectedIndex (step st0 (KeyDown prev)) = (selectedIndex st0 - 1) `mod` m.
  { move=> st0 Hv0 Hs0 Hf0 Hi0.
    rewrite keydown_prev ?Hs0 ?Hf0 // -/m Hbwd //.
    have Hrange : 0 ≤ (selectedIndex st0 - 1) `mod` m
                    < JS.len (getFilteredTabs st0).
    { rewrite Hf0. apply Z.mod_pos_bound. lia. }
    by have [-> _] := moved_fields st0 _ Hrange. }
  have Hfn : 0 ≤ (selectedIndex st + 1) `mod` m < m by apply Z.mod_pos_bound.
  have Hfp : 0 ≤ (selectedIndex st - 1) `mod` m < m by apply Z.mod_pos_bound.
  split_and!.
  - by apply Hnext; [| | |lia].
  - by apply Hprev; [| | |lia].
  - rewrite /run /=. rewrite -/(step st (KeyDown next)) -/(step _ (KeyDown prev)).
    have Heq := keydown_next st next Hvis Hmn Hen Hcn eq_refl Hm.
    have [Hi [Hv [Hs Hf]]] :=
      moved_fields st ((selectedIndex st + 1) `mod` m) ltac:(done).
    rewrite -/m Hfwd in Heq; first lia. rewrite -Heq in Hi Hv Hs Hf.
    have -> : selectedIndex (step (step st (KeyDown next)) (KeyDown prev)) =
              (selectedIndex (step st (KeyDown next)) - 1) `mod` m.
    { apply Hprev; [by rewrite Hv|done|done|rewrite Hi; lia]. }
    rewrite Hi Zminus_mod_idemp_l. have -> : selectedIndex st + 1 - 1 = selectedIndex st by lia.
    apply Z.mod_small. lia.
  - rewrite /run /=. rewrite -/(step st (KeyDown prev)) -/(step _ (KeyDown next)).
    have Heq := keydown_prev st prev Hvis Hmp Hep Hcp Hne eq_refl Hm.
    have [Hi [Hv [Hs Hf]]] :=
      moved_fields st ((selectedIndex st - 1) `mod` m) ltac:(done).
    rewrite -/m Hbwd in Heq; first lia. rewrite -Heq in Hi Hv Hs Hf.
    have -> : selectedIndex (step (step st (KeyDown prev)) (KeyDown next)) =
              (selectedIndex (step st (KeyDown prev)) + 1) `mod` m.
    { apply Hnext; [by rewrite Hv|done|done|rewrite Hi; lia]. }
    rewrite Hi Zplus_mod_idemp_l. have -> : selectedIndex st - 1 + 1 = selectedIndex st by lia.
    apply Z.mod_small. lia.
Qed.

Lemma onToggleSwitcher_fields request innerWidth st :
  let st' := onToggleSwitcher request innerWidth st in
  switcherVisible st' = switcherVisible st ∧
  shadowRoot st' = shadowRoot st ∧
  searchQuery st' = searchQuery st ∧
  currentSettings st' = currentSettings st ∧
  sent st' = sent st.
Proof.
  rewrite /onToggleSwitcher /=.
  case: (default Forward _); case Hv: (switcherVisible st) => //;
    case: (_ <? _) => //;
    match goal with
    | |- context [renderTabs ?moved] =>
        have [-> [-> [_ [_ [-> [-> [-> _]]]]]]] := renderTabs_fields moved
    end; by rewrite /= Hv.
Qed.

(** X18. While the switcher is visible, a forward toggle followed by a
    backward toggle with the same tab list (or the other way round)
    brings the selection back to where it was. *)
Theorem toggle_forward_backward st tabs cur innerWidth :
  let fwd := ToggleSwitcher (mkToggleRequest tabs cur (Some Forward)) innerWidth in
  let bwd := ToggleSwitcher (mkToggleRequest tabs cur (Some Backward)) innerWidth in
  switcherVisible st = true →
  0 ≤ selectedIndex st < JS.len (getFilteredTabs (step st fwd)) →
  selectedIndex (run st [fwd; bwd]) = selectedIndex st ∧
  selectedIndex (run st [bwd; fwd]) = selectedIndex st.
Proof.
  move=> fwd bwd Hvis. rewrite /run /=.
  set reqF := mkToggleRequest tabs cur (Some Forward).
  set reqB := mkToggleRequest tabs cur (Some Backward).
  have Hstep : ∀ req st0, req_tabs req = tabs →
    switcherVisible st0 = true → currentSettings st0 = currentSettings st →
    searchQuery st0 = searchQuery st →
    let st1 := onToggleSwitcher req innerWidth st0 in
    switcherVisible st1 = true ∧ currentSettings st1 = currentSettings st ∧
    searchQuery st1 = searchQuery st ∧
    getFilteredTabs st1 = getFilteredTabs (onToggleSwitcher reqF innerWidth st) ∧
    (0 ≤ selectedIndex st0 →
     0 < JS.len (getFilteredTabs (onToggleSwitcher reqF innerWidth st)) →
     selectedIndex st1 =
       match default Forward (req_direction req) with
       | Forward => (selectedIndex st0 + 1)
                      `mod` JS.len (getFilteredTabs (onToggleSwitcher reqF innerWidth st))
       | Backward => (selectedIndex st0 - 1)
                      `mod` JS.len (getFilteredTabs (onToggleSwitcher reqF innerWidth st))
       end).
  { move=> req st0 Hreq Hv0 Hs0 Hq0 st1.
    have [Hv [_ [Hq [Hs _]]]] := onToggleSwitcher_fields req innerWidth st0.
    have [Ht Hsel] := onToggleSwitcher_visible st0 req innerWidth Hv0.
    have [HtF _] := onToggleSwitcher_visible st reqF innerWidth Hvis.
    have [_ [_ [HqF _]]] := onToggleSwitcher_fields reqF innerWidth st.
    have Hf : getFilteredTabs st1 =
              getFilteredTabs (onToggleSwitcher reqF innerWidth st).
    { apply getFilteredTabs_ext.
      - by rewrite /st1 Ht HtF Hreq Hs0.
      - by rewrite /st1 Hq HqF Hq0. }
    rewrite /st1 Hv Hs Hq. split_and!; try done; try congruence.
    move=> Hi Hm. rewrite -Hf. apply: Hsel => //. by rewrite -/st1 Hf. }
  set m := JS.len (getFilteredTabs (onToggleSwitcher reqF innerWidth st)) in Hstep *.
  move=> Hsel. have Hm : 0 < m by lia.
  have [HvF [HsF [HqF [_ HiF]]]] := Hstep reqF st eq_refl Hvis eq_refl eq_refl.
  have [HvB [HsB [HqB [_ HiB]]]] := Hstep reqB st eq_refl Hvis eq_refl eq_refl.
  have HF := HiF ltac:(lia) Hm. have HB := HiB ltac:(lia) Hm.
  rewrite /= in HF HB.
  have [_ [_ [_ [_ HiFB]]]] :=
    Hstep reqB (onToggleSwitcher reqF innerWidth st) eq_refl HvF HsF HqF.
  have [_ [_ [_ [_ HiBF]]]] :=
    Hstep reqF (onToggleSwitcher reqB innerWidth st) eq_refl HvB HsB HqB.
  have HrF := Z.mod_pos_bound (selectedIndex st + 1) m Hm.
  have HrB := Z.mod_pos_bound (selectedIndex st - 1) m Hm.
  split.
  - rewrite HiFB /=; [rewrite HF; lia|done|].
    rewrite HF Zminus_mod_idemp_l.
    have -> : selectedIndex st + 1 - 1 = selectedIndex st by lia.
    apply Z.mod_small. lia.
  - rewrite HiBF /=; [rewrite HB; lia|done|].
    rewrite HB Zplus_mod_idemp_l.
    have -> : selectedIndex st - 1 + 1 = selectedIndex st by lia.
    apply Z.mod_small. lia.
Qed.
(** *** What the controller keeps true *)

Lemma searchQuery_empty_filter st :
  searchQuery st = EmptyString → getFilteredTabs st = currentTabs st.
Proof. by rewrite /getFilteredTabs => ->. Qed.

Lemma len_pos {A} (l : list A) : l ≠ [] → 0 < JS.len l.
Proof. case: l => [//|a l] _. rewrite /JS.len /=. lia. Qed.

Lemma inv_frame st st' :
  searchQuery st' = searchQuery st → shadowRoot st' = shadowRoot st →
  switcherVisible st' = switcherVisible st →
  currentTabs st' = currentTabs st → selectedIndex st' = selectedIndex st →
  sessionInvariant st → sessionInvariant st'.
Proof. rewrite /sessionInvariant. by move=> -> -> -> -> ->. Qed.

Lemma inv_trackModifiers key v st :
  sessionInvariant st → sessionInvariant (trackModifiers key v st).
Proof.
  have [? [? [? [? [? [? _]]]]]] := trackModifiers_fields key v st.
  exact: inv_frame.
Qed.

Lemma inv_hideSwitcher st :
  sessionInvariant st → sessionInvariant (hideSwitcher st).
Proof.
  move=> Hinv. rewrite /hideSwitcher.
  case Hv: (switcherVisible st) => /=; last done.
  move: Hinv => [_ [_ [H0 Hlt]]]. by split_and!.
Qed.

Lemma inv_set_selectedIndex i st :
  sessionInvariant st → 0 ≤ i →
  (currentTabs st ≠ [] → i < JS.len (currentTabs st)) →
  sessionInvariant (set_selectedIndex i st).
Proof. rewrite /sessionInvariant /=. tauto. Qed.

Lemma inv_renderTabs_clamp st :
  searchQuery st = EmptyString → shadowRoot st = switcherVisible st →
  shadowRoot st = true ∨
    (0 ≤ selectedIndex st ∧
     (currentTabs st ≠ [] → selectedIndex st < JS.len (currentTabs st))) →
  sessionInvariant (renderTabs st).
Proof.
  move=> Hq Hroot Hsel.
  have [Hv [Hr [Ht [_ [Hq' _]]]]] := renderTabs_fields st.
  have Hi := @renderTabs_selectedIndex H st.
  rewrite (searchQuery_empty_filter _ Hq) in Hi.
  rewrite /sessionInvariant Hv Hr Ht Hq' Hi.
  split_and!; try done.
  - case: (shadowRoot st) Hsel => [_|[//|[? _]]]; lia.
  - move=> Hne. have := len_pos _ Hne.
    case: (shadowRoot st) Hsel => [_|[//|[? Hlt]]] ?; first lia.
    by apply Hlt.
Qed.

Lemma inv_renderTabs st :
  sessionInvariant st → sessionInvariant (renderTabs st).
Proof.
  move=> [Hq [Hr [H0 Hlt]]]. apply inv_renderTabs_clamp => //. by right.
Qed.

Lemma inv_moved st i :
  sessionInvariant st → 0 ≤ i → 0 < JS.len (getFilteredTabs st) →
  sessionInvariant
    (renderTabs
       (set_selectedIndex (JS.rem i (JS.len (getFilteredTabs st))) st)).
Proof.
  move=> Hinv Hi Hm. have [Hq _] := Hinv.
  have Hb := Z.rem_bound_pos i _ Hi Hm.
  apply inv_renderTabs, inv_set_selectedIndex => //; first by case: Hb.
  move=> _. rewrite -(searchQuery_empty_filter _ Hq). by case: Hb.
Qed.

Lemma inv_closeSelectedTab st :
  sessionInvariant st → sessionInvariant (closeSelectedTab st).
Proof. rewrite /closeSelectedTab. by repeat case_match. Qed.

Lemma inv_onToggleSwitcher request innerWidth st :
  sessionInvariant st →
  sessionInvariant (onToggleSwitcher request innerWidth st).
Proof.
  move=> [Hq [Hr [H0 Hlt]]].
  have [Hv' [Hr' [Hq' _]]] := onToggleSwitcher_fields request innerWidth st.
  have Hnn := selectedIndex_nonneg_step st (ToggleSwitcher request innerWidth) H0.
  rewrite /= in Hnn.
  rewrite /sessionInvariant Hv' Hr' Hq'. split_and!; try done.
  case Hvis: (switcherVisible st).
  - have [_ Hsel] := onToggleSwitcher_visible st request innerWidth Hvis.
    rewrite searchQuery_empty_filter in Hsel; first by rewrite Hq' Hq.
    move=> Hne. have Hm := len_pos _ Hne. rewrite (Hsel H0 Hm).
    case: (default Forward _); apply Z.mod_pos_bound, Hm.
  - have [_ ->] := onToggleSwitcher_hidden st request innerWidth Hvis.
    move=> Hne. have Hm := len_pos _ Hne.
    case: (default Forward _); case: Z.ltb_spec; lia.
Qed.

Lemma inv_showSwitcher_resume stored st :
  sessionInvariant st → sessionInvariant (showSwitcher_resume stored st).
Proof.
  move=> [Hq [Hr [H0 Hlt]]].
  have [Hv' [Hr' [Ht' [Hq' [_ Hi']]]]] := showSwitcher_resume_fields stored st.
  rewrite /sessionInvariant Hv' Hr' Ht' Hq' Hi'.
  split_and!; try done; first lia.
  move=> Hne. have := len_pos _ Hne. lia.
Qed.

Lemma inv_onCloseTabResponse tabId response st :
  sessionInvariant st →
  sessionInvariant (onCloseTabResponse tabId response st).
Proof.
  case: response => [success|//] Hinv. have [Hq [Hr [H0 Hlt]]] := Hinv.
  rewrite /onCloseTabResponse.
  set st1 := set_currentTabs _ st.
  set st2 := if JS.len (currentTabs st1) <=? selectedIndex st1 then _ else st1.
  have Hinv2 : sessionInvariant st2.
  { rewrite /st2. case: Z.leb_spec => Hle.
    - rewrite /sessionInvariant /=. split_and!; try done; first lia.
      move=> Hne. have := len_pos _ Hne. lia.
    - rewrite /sessionInvariant /=. split_and!; try done. }
  case: (_ =? _); [exact: inv_hideSwitcher | exact: inv_renderTabs].
Qed.

Lemma inv_handleGlobalKeydown key st :
  sessionInvariant st → sessionInvariant (handleGlobalKeydown key st).
Proof.
  move=> Hinv. rewrite /handleGlobalKeydown.
  have := inv_trackModifiers key true st Hinv.
  move: (trackModifiers key true st) => st1 Hinv1.
  have [_ [_ [H0 _]]] := Hinv1.
  cbv zeta. case: (negb _); first done.
  case: (key_is key "Escape"); first exact: inv_hideSwitcher.
  case: (key_is _ _); first exact: inv_closeSelectedTab.
  case: (key_is _ _).
  { case: Z.ltb_spec => Hm; last done. apply inv_moved => //. lia. }
  case: (key_is _ _); last done.
  case: Z.ltb_spec => Hm; last done. apply inv_moved => //. lia.
Qed.

Lemma inv_handleGlobalKeyup key st :
  sessionInvariant st → sessionInvariant (handleGlobalKeyup key st).
Proof.
  move=> Hinv. rewrite /handleGlobalKeyup.
  have := inv_trackModifiers key false st Hinv.
  move: (trackModifiers key false st) => st1 Hinv1.
  cbv zeta. by repeat case_match.
Qed.

Lemma inv_step st e :
  sessionInvariant st → enabled st e → sessionInvariant (step st e).
Proof.
  case: e => [request w|stored|key|key| |index| |tabId response] Hinv Hen /=.
  - exact: inv_onToggleSwitcher.
  - exact: inv_showSwitcher_resume.
  - by apply inv_handleGlobalKeydown, inv_trackModifiers.
  - by apply inv_handleGlobalKeyup, inv_trackModifiers.
  - by move: Hinv; rewrite /onBlur /resetModifiers /sessionInvariant.
  - have [Hq [Hr _]] := Hinv. rewrite /onMouseEnter.
    apply inv_renderTabs_clamp => //. by left.
  - exact: inv_hideSwitcher.
  - exact: inv_onCloseTabResponse.
Qed.

Lemma inv_run st events :
  sessionInvariant st → feasible st events →
  sessionInvariant (run st events).
Proof.
  elim: events st => [//|e events IH] st Hinv [Hen Hfeas].
  apply: IH => //. exact: inv_step.
Qed.

(** X13. Whatever events reach the content script after it has loaded,
    with every [mouseenter] arriving while the overlay exists, the
    search query is empty (so no tab is ever filtered out), the overlay
    exists exactly while the switcher is visible, and the selected
    index is a position of the tab list unless the list is empty. *)
Theorem session_invariant events :
  feasible initial events →
  let st := run initial events in
  sessionInvariant st ∧ getFilteredTabs st = currentTabs st.
Proof.
  move=> Hfeas st.
  have Hinv : sessionInvariant st.
  { by apply inv_run. }
  split; first done. apply searchQuery_empty_filter. by case: Hinv.
Qed.

(** *** The background worker's copy of the visibility flag *)

Lemma flagAfter_snoc b requests r :
  Messages.flagAfter b (requests ++ [r]) =
  Messages.onMessage (Messages.flagAfter b requests) r.
Proof. by rewrite /Messages.flagAfter foldl_app. Qed.

Lemma flag_frame b st st' :
  sent st' = sent st → switcherVisible st' = switcherVisible st →
  Messages.flagAfter b (sent st) = switcherVisible st →
  Messages.flagAfter b (sent st') = switcherVisible st'.
Proof. by move=> -> ->. Qed.

Lemma flag_trackModifiers b key v st :
  Messages.flagAfter b (sent st) = switcherVisible st →
  Messages.flagAfter b (sent (trackModifiers key v st)) =
  switcherVisible (trackModifiers key v st).
Proof.
  have [? [_ [_ [_ [_ [_ [_ ?]]]]]]] := trackModifiers_fields key v st.
  exact: flag_frame.
Qed.

Lemma flag_hideSwitcher b st :
  Messages.flagAfter b (sent st) = switcherVisible st →
  Messages.flagAfter b (sent (hideSwitcher st)) =
  switcherVisible (hideSwitcher st).
Proof.
  move=> Hflag. rewrite /hideSwitcher.
  case Hv: (switcherVisible st) => /=; last done.
  by rewrite flagAfter_snoc.
Qed.

Lemma flag_renderTabs b st :
  Messages.flagAfter b (sent st) = switcherVisible st →
  Messages.flagAfter b (sent (renderTabs st)) =
  switcherVisible (renderTabs st).
Proof.
  have [? [_ [_ [_ [_ [_ [? _]]]]]]] := renderTabs_fields st.
  exact: flag_frame.
Qed.

Lemma flag_closeSelectedTab b st :
  Messages.flagAfter b (sent st) = switcherVisible st →
  Messages.flagAfter b (sent (closeSelectedTab st)) =
  switcherVisible (closeSelectedTab st).
Proof.
  rewrite /closeSelectedTab => Hflag.
  repeat case_match => //=. by rewrite flagAfter_snoc.
Qed.

Lemma flag_handleGlobalKeydown b key st :
  Messages.flagAfter b (sent st) = switcherVisible st →
  Messages.flagAfter b (sent (handleGlobalKeydown key st)) =
  switcherVisible (handleGlobalKeydown key st).
Proof.
  move=> Hflag. rewrite /handleGlobalKeydown.
  have := flag_trackModifiers b key true st Hflag.
  move: (trackModifiers key true st) => st1 Hflag1.
  cbv zeta. case: (negb _); first done.
  case: (key_is key "Escape"); first exact: flag_hideSwitcher.
  case: (key_is _ _); first exact: flag_closeSelectedTab.
  case: (key_is _ _).
  { case: (_ <? _); last done. exact: flag_renderTabs. }
  case: (key_is _ _); last done.
  case: (_ <? _); last done. exact: flag_renderTabs.
Qed.

Lemma flag_handleGlobalKeyup b key st :
  Messages.flagAfter b (sent st) = switcherVisible st →
  Messages.flagAfter b (sent (handleGlobalKeyup key st)) =
  switcherVisible (handleGlobalKeyup key st).
Proof.
  move=> Hflag. rewrite /handleGlobalKeyup.
  have := flag_trackModifiers b key false st Hflag.
  move: (trackModifiers key false st) => st1 Hflag1.
  cbv zeta. repeat case_match => //=. by rewrite flagAfter_snoc.
Qed.

Lemma flag_step b st e :
  Messages.flagAfter b (sent st) = switcherVisible st →
  Messages.flagAfter b (sent (step st e)) = switcherVisible (step st e).
Proof.
  case: e => [request w|stored|key|key| |index| |tabId response] Hflag /=.
  - have [? [_ [_ [_ ?]]]] := onToggleSwitcher_fields request w st.
    exact: flag_frame.
  - have [-> [_ [_ [_ [-> _]]]]] := showSwitcher_resume_fields stored st.
    by rewrite flagAfter_snoc.
  - by apply flag_handleGlobalKeydown, flag_trackModifiers.
  - by apply flag_handleGlobalKeyup, flag_trackModifiers.
  - done.
  - exact: flag_renderTabs.
  - exact: flag_hideSwitcher.
  - case: response => [success|//]. rewrite /onCloseTabResponse.
    set st1 := set_currentTabs _ st.
    set st2 := if JS.len (currentTabs st1) <=? selectedIndex st1 then _ else st1.
    have Hflag2 : Messages.flagAfter b (sent st2) = switcherVisible st2.
    { rewrite /st2. by case: (_ <=? _). }
    case: (_ =? _); [exact: flag_hideSwitcher | exact: flag_renderTabs].
Qed.

(** X14. The background worker's [switcherVisible] flag, updated from
    the [switcherShown] and [switcherHidden] messages in the order the
    content script sent them, has the value of the content script's own
    [switcherVisible] after every event. *)
Theorem background_flag_mirrors_switcher events :
  let st := run initial events in
  Messages.flagAfter false (sent st) = switcherVisible st.
Proof.
  rewrite /run.
  have Hgen : ∀ st, Messages.flagAfter false (sent st) = switcherVisible st →
    Messages.flagAfter false (sent (foldl step st events)) =
    switcherVisible (foldl step st events).
  { elim: events => [//|e events IH] st Hflag /=. by apply IH, flag_step. }
  exact: Hgen.
Qed.
End controller_more.

Section controller_more_witnesses.
Import Content.

Lemma escape_cancels_witness :
  let st :=
    mkState true true [mkTab 1 None None None; mkTab 2 None None None]
      (Some 1) 1 EmptyString true false false false defaultSettings
      [switcherShown] in
  let st' := @step ascii_strings st (KeyDown "Escape") in
  switcherVisible st' = false ∧ shadowRoot st' = false ∧
  sent st' = sent st ++ [switcherHidden] ∧
  (∀ m, pressed m st' = false) ∧
  currentTabs st' = currentTabs st ∧
  selectedIndex st' = selectedIndex st.
Proof.
  move=> st. by apply (proj1 (@escape_cancels ascii_strings st)).
Defined.

Lemma next_prev_roundtrip_witness :
  let st :=
    mkState true true
      [mkTab 1 None (Some "A") None; mkTab 2 None (Some "B") None;
       mkTab 3 None (Some "C") None]
      (Some 1) 2 EmptyString true false false false defaultSettings
      [switcherShown] in
  selectedIndex (@step ascii_strings st (KeyDown "ArrowRight")) = 0 ∧
  selectedIndex (@step ascii_strings st (KeyDown "ArrowLeft")) = 1 ∧
  selectedIndex
    (@run ascii_strings st [KeyDown "ArrowRight"; KeyDown "ArrowLeft"]) = 2 ∧
  selectedIndex
    (@run ascii_strings st [KeyDown "ArrowLeft"; KeyDown "ArrowRight"]) = 2.
Proof.
  move=> st.
  apply (@next_prev_roundtrip ascii_strings st); compute_done.
Defined.

Lemma toggle_forward_backward_witness :
  let tabs :=
    [mkTab 1 None (Some "A") None; mkTab 2 None (Some "B") None;
     mkTab 3 None (Some "C") None] in
  let st :=
    mkState true true tabs (Some 1) 1 EmptyString true false false false
      defaultSettings [switcherShown] in
  let fwd := ToggleSwitcher (mkToggleRequest (Some tabs) 1 (Some Forward)) 1920 in
  let bwd := ToggleSwitcher (mkToggleRequest (Some tabs) 1 (Some Backward)) 1920 in
  selectedIndex (@run ascii_strings st [fwd; bwd]) = 1 ∧
  selectedIndex (@run ascii_strings st [bwd; fwd]) = 1.
Proof.
  move=> tabs st fwd bwd.
  apply (@toggle_forward_backward ascii_strings st (Some tabs) 1 1920);
    compute_done.
Defined.

Lemma session_invariant_witness :
  let tabs :=
    [mkTab 1 None (Some "A") None; mkTab 2 None (Some "B") None;
     mkTab 3 None (Some "C") None] in
  let events :=
    [ToggleSwitcher (mkToggleRequest (Some tabs) 1 (Some Forward)) 1920;
     SettingsLoaded None; MouseEnter 2; KeyDown "ArrowRight"; KeyUp "Alt";
     SwitchToTabResponse] in
  let st := @run ascii_strings initial events in
  sessionInvariant st ∧ @getFilteredTabs ascii_strings st = currentTabs st.
Proof.
  move=> tabs events.
  apply (@session_invariant ascii_strings events). rewrite /=. by split_and!.
Defined.
End controller_more_witnesses.

(** ** The options page's hotkey buttons *)

Section options_facts.
Import Options.
Implicit Types (b : Button) (action key a : string) (self : nat).

Lemma not_reserved key :
  isModifier key = false → key ≠ "Escape"%string → key ∉ reserved.
Proof.
  rewrite /isModifier /reserved => /bool_decide_eq_false Hmod Hesc.
  rewrite !elem_of_cons elem_of_nil. move=> Hin. apply: Hmod.
  rewrite !elem_of_cons elem_of_nil. tauto.
Qed.

Lemma recorded_refl action b a : recorded action b b a.
Proof. by left. Qed.

Lemma recorded_trans action b1 b2 b3 a :
  recorded action b1 b2 a → recorded action b2 b3 a →
  recorded action b1 b3 a.
Proof.
  rewrite /recorded. move=> [H12|H12] [H23|H23]; try by right.
  - left. by rewrite H23.
  - right. by rewrite H23.
Qed.

Lemma handleKeydown_recorded action self key b a :
  recorded action b (handleKeydown action self key b) a.
Proof.
  rewrite /handleKeydown. case Hmod: (isModifier key); first by left.
  case: bool_decide_reflect => Hesc; first by left.
  rewrite /recorded /=. case: (decide (a = action)) => [->|Hne].
  - right. split; first done. exists key. rewrite lookup_insert_eq.
    split; first done. exact: not_reserved.
  - left. by rewrite lookup_insert_ne.
Qed.

Lemma dispatch_recorded action key ls b a :
  recorded action b
    (foldl (λ b self, handleKeydown action self key b) b ls) a.
Proof.
  elim: ls b => [|self ls IH] b /=; first exact: recorded_refl.
  apply: recorded_trans; last exact: IH.
  exact: handleKeydown_recorded.
Qed.

Lemma step_recorded action b e a : recorded action b (step action b e) a.
Proof.
  case: e => [|key|i] /=.
  - rewrite /onClick. case: (isRecording b); by left.
  - exact: dispatch_recorded.
  - case: (suspended b !! i) => [self|]; by left.
Qed.

(** X16. Whatever clicks, key presses and completed saves a hotkey
    button goes through, an entry of [settings.hotkeys] either keeps
    its value or is the entry of the button's action and holds a key
    that is neither a modifier nor Escape. *)
Theorem recorded_hotkey_not_reserved action b events a :
  let b' := run action b events in
  hotkeys b' !! a = hotkeys b !! a ∨
  (a = action ∧ ∃ key, hotkeys b' !! a = Some key ∧ key ∉ reserved).
Proof.
  rewrite /run. elim: events b => [|e events IH] b /=; first by left.
  apply: (recorded_trans action b (step action b e)); last exact: IH.
  exact: step_recorded.
Qed.

Lemma dispatch_cases action key ls b :
  let b' := foldl (λ b self, handleKeydown action self key b) b ls in
  b' = b ∨ isRecording b' = false ∨
  (isRecording b' = isRecording b ∧ listeners b' = listeners b ∧
   created b' = created b).
Proof.
  elim: ls b => [|self ls IH] b /=; first by left.
  have := IH (handleKeydown action self key b).
  rewrite /handleKeydown. case Hmod: (isModifier key); first done.
  case: bool_decide_reflect => Hesc /=.
  - move=> [->|[->|[-> _]]] /=; right; by left.
  - move=> [->|[->|[-> [-> ->]]]] /=; right; [by right|by left|by right].
Qed.

Lemma step_listening action b e : listening b → listening (step action b e).
Proof.
  rewrite /listening. case: e => [|key|i] /= Hb.
  - rewrite /onClick. case Hrec: (isRecording b); first done.
    move=> _ /=. exists (created b). split; first done.
    rewrite elem_of_app. right. by left.
  - have := dispatch_cases action key (listeners b) b.
    move=> [->|[->|[-> [-> ->]]]] //.
  - by case: (suspended b !! i).
Qed.

(** X19. From a page that has just been set up, whatever clicks, key
    presses and completed saves follow, a button that is recording has
    the key listener of its latest click registered. *)
Theorem recording_implies_listening action h events :
  let b := run action (fresh h) events in
  isRecording b = true → ∃ n, created b = S n ∧ n ∈ listeners b.
Proof.
  rewrite /run.
  have Hgen : ∀ b, listening b → listening (foldl (step action) b events).
  { elim: events => [//|e events IH] b Hb /=. by apply IH, step_listening. }
  by apply Hgen.
Qed.

End options_facts.

Lemma recording_implies_listening_witness :
  let b := Options.run "nextTab" (Options.fresh ∅)
             [Options.Click; Options.Keydown "Shift"] in
  ∃ n, Options.created b = S n ∧ n ∈ Options.listeners b.
Proof.
  move=> b.
  exact: (recording_implies_listening "nextTab" ∅
            [Options.Click; Options.Keydown "Shift"] eq_refl).
Defined.

(** ** From the shortcut to the switch *)

Section quick_switch_facts.
Context `{HostStrings}.
Import Content.
Implicit Types (st : State) (m : Modifier).

Lemma isModifierKey_key_of m : isModifierKey (key_of m) = true.
Proof. by case: m. Qed.

Lemma released_all m st :
  (∀ m', m' ≠ m → pressed m' st = false) →
  ∀ m', pressed m' (trackModifiers (key_of m) false st) = false.
Proof.
  move=> Hst m'.
  case: m Hst => Hst; case: m' => //=;
    by [apply: (Hst Control)|apply: (Hst Meta)|apply: (Hst Shift)
       |apply: (Hst Alt)].
Qed.

Lemma noModifierHeld_pressed st :
  (∀ m, pressed m st = false) → noModifierHeld st = true.
Proof.
  move=> Hst. rewrite /noModifierHeld.
  have /= -> := Hst Control. have /= -> := Hst Meta.
  have /= -> := Hst Alt. by have /= -> := Hst Shift.
Qed.

Lemma slice0_two {A} (a b : A) (l : list A) n :
  2 ≤ n → ∃ l', JS.slice0 (a :: b :: l) n = a :: b :: l'.
Proof.
  move=> Hn. rewrite /JS.slice0. case: Z.ltb_spec => [?|_]; first lia.
  have [k ->] : ∃ k, Z.to_nat n = S (S k).
  { exists (Z.to_nat n - 2)%nat. lia. }
  by exists (take k l).
Qed.

(** X15. The shortcut pressed on a page where the switcher is hidden,
    with the two most recently used tabs [ta] and [tb] open in the
    window and room for two cards, followed by the release of the one
    modifier that was held, sends the [switcherShown] notice and then
    the request to switch to [tb], the tab used before the current
    one; the response to that request hides the switcher. *)
Theorem quick_switch st mru cache activeTab isLoaded allTabs request
    innerWidth stored n m ta tb :
  Background.toggleTabSwitcher (tab_id ta :: tab_id tb :: mru) cache
    activeTab isLoaded allTabs Forward = Some request →
  NoDup (tab_id <$> allTabs) → ta ∈ allTabs → tb ∈ allTabs →
  switcherVisible st = false →
  getMaxTabsForWidth (currentSettings st) innerWidth = Some n → 2 ≤ n →
  (∀ m', m' ≠ m → pressed m' st = false) →
  let st' := run st [ToggleSwitcher request innerWidth;
                     SettingsLoaded stored; KeyUp (key_of m)] in
  sent st' = sent st ++ [switcherShown; switchToTabRequest (tab_id tb)] ∧
  switcherVisible (step st' SwitchToTabResponse) = false.
Proof.
  move=> Hreq Hnd Hta Htb Hvis Hmax Hn Hheld.
  have Htabs : ∃ rest, req_tabs request =
    Some (Background.withScreenshot cache ta ::
          Background.withScreenshot cache tb :: rest).
  { move: Hreq. rewrite /Background.toggleTabSwitcher.
    case: activeTab => [tab|//].
    case: (_ =? _) => //. case: (_ && _) => //. case: (negb _) => //.
    move=> [<-] /=. rewrite sortTabsByMRU_eq /=.
    rewrite (tabMap_lookup_NoDup _ _ Hnd Hta) (tabMap_lookup_NoDup _ _ Hnd Htb).
    rewrite /=. by eexists. }
  have Hdir : req_direction request = Some Forward.
  { move: Hreq. rewrite /Background.toggleTabSwitcher.
    case: activeTab => [tab|//]. by repeat case_match => //; move=> [<-]. }
  case: Htabs => rest Htabs.
  set ta' := Background.withScreenshot cache ta in Htabs.
  set tb' := Background.withScreenshot cache tb in Htabs.
  rewrite /run /=.
  (* the toggle message *)
  have [Ht1 Hi1] := onToggleSwitcher_hidden st request innerWidth Hvis.
  have [Hv1 [_ [_ [_ Hs1]]]] := onToggleSwitcher_fields request innerWidth st.
  have Hp1 := λ m', @pressed_onToggleSwitcher H m' request innerWidth st.
  move: (onToggleSwitcher request innerWidth st) Ht1 Hi1 Hv1 Hs1 Hp1
    => st1 /= Ht1 Hi1 Hv1 Hs1 Hp1.
  rewrite Htabs Hmax /= in Ht1.
  have [l1 Hl1] := slice0_two ta' tb' rest n Hn.
  rewrite Hl1 in Ht1. rewrite Hdir Ht1 /= in Hi1.
  have Hi1' : selectedIndex st1 = 1.
  { rewrite Hi1 /JS.len /=. case: Z.ltb_spec => //. lia. }
  (* the settings have been read *)
  have [Hv2 [_ [Ht2 [Hq2 [Hs2 Hi2]]]]] := showSwitcher_resume_fields stored st1.
  have Hp2 := λ m', @pressed_showSwitcher_resume H m' stored st1.
  move: (showSwitcher_resume stored st1) Hv2 Ht2 Hq2 Hs2 Hi2 Hp2
    => st2 /= Hv2 Ht2 Hq2 Hs2 Hi2 Hp2.
  have Hi2' : selectedIndex st2 = 1.
  { rewrite Hi2 Hi1' Ht1 /JS.len /=. lia. }
  (* the release of the modifier *)
  have Hheld2 : ∀ m', m' ≠ m → pressed m' st2 = false.
  { move=> m' Hm'. rewrite Hp2 Hp1. by apply Hheld. }
  have Hrel := released_all m st2 Hheld2.
  have := trackModifiers_fields (key_of m) false st2.
  move: (trackModifiers (key_of m) false st2) Hrel
    => st3 Hrel /= [Hv3 [_ [Ht3 [_ [Hi3 [Hq3 [_ Hs3]]]]]]].
  have Hrel4 : ∀ m', pressed m' (trackModifiers (key_of m) false st3) = false.
  { apply released_all => m' _. exact: Hrel. }
  rewrite /handleGlobalKeyup.
  have := trackModifiers_fields (key_of m) false st3.
  move: (trackModifiers (key_of m) false st3) Hrel4
    => st4 Hrel4 /= [Hv4 [_ [Ht4 [_ [Hi4 [Hq4 [_ Hs4]]]]]]].
  rewrite Hv4 Hv3 Hv2 /= isModifierKey_key_of (noModifierHeld_pressed _ Hrel4).
  rewrite searchQuery_empty_filter; first by rewrite Hq4 Hq3.
  rewrite Ht4 Ht3 Ht2 Ht1 Hi4 Hi3 Hi2' /=.
  split.
  - by rewrite Hs4 Hs3 Hs2 Hs1 -assoc.
  - by have [-> _] := hideSwitcher_fields
      (switchToTab (tab_id tb) st4).
Qed.
End quick_switch_facts.

Lemma quick_switch_witness :
  let ta := mkTab 1 (Some "https://a.example/") (Some "A") None in
  let tb := mkTab 2 (Some "https://b.example/") (Some "B") None in
  let tc := mkTab 3 (Some "https://c.example/") (Some "C") None in
  let request := mkToggleRequest (Some [ta; tb; tc]) 1 (Some Forward) in
  let st :=
    Content.mkState false false [] None 0 EmptyString false false false true
      Content.defaultSettings [] in
  let st' :=
    @Content.run ascii_strings st
      [Content.ToggleSwitcher request 1920; Content.SettingsLoaded None;
       Content.KeyUp "Alt"] in
  Content.sent st' =
    [Content.switcherShown; Content.switchToTabRequest 2] ∧
  Content.switcherVisible
    (@Content.step ascii_strings st' Content.SwitchToTabResponse) = false.
Proof.
  move=> ta tb tc request st.
  apply (@quick_switch ascii_strings st [3] [] (Some ta) true [tc; tb; ta]
           request 1920 None 10 Content.Alt ta tb).
  - reflexivity.
  - compute_done.
  - right; right; by left.
  - right; by left.
  - reflexivity.
  - reflexivity.
  - lia.
  - by case.
Defined.
